(** * WhatTheLog: the sparse adjacency index, the state graph and trace matching

    A shallow embedding of [whatthelog/prefixtree/sparse_matrix.py],
    [whatthelog/prefixtree/state.py] and [whatthelog/prefixtree/graph.py],
    with two of their callers: [GraphEnv.get_next_node] of
    [whatthelog/reinforcementlearning/environment.py] and
    [Visualizer.get_label] of [whatthelog/prefixtree/visualizer.py].

    Python values are modelled as follows.
    - [int] is [Z]; [str] is [string] (a sequence of bytes, compared
      lexicographically as Python compares code points).
    - a Python [list] is a [list]; a [dict] is a [gmap].
    - a [State] is a mutable object: the caller and the graph share it.  The
      objects live in a heap keyed by their identity [id(state)], and a state
      passed to a method is the reference.
    - a method of [Graph] takes the world (heap, graph) and returns its
      outcome, a value or the exception raised, with the world it leaves
      behind.  An exception does not undo the writes that precede it.
    - [random.choice] draws from an explicit sequence of numbers, and
      [match_trace] returns the caller's list as it leaves it.

    Not among the sources, and modelled from the specification where a
    method under study needs them: the class [StateProperties], and the two
    methods of [SparseMatrix] that [merge_states] calls to rewrite edges.
    [EdgeProperties] occurs only through [str(props)], the payload string;
    the syntax tree occurs only through [search], a parameter. *)

From Stdlib Require Import ZArith String Ascii List Lia Bool.
From Stdlib Require Import DecimalString DecimalZ.
From stdpp Require Import base option list gmap strings sorting.

Local Open Scope string_scope.
Local Open Scope Z_scope.

(** ** Outcomes *)

Inductive exn : Set :=
| KeyError
| IndexError
| TypeError
| ValueError
| StateAlreadyExistsException
| StateDoesNotExistException.

Inductive result (A : Type) : Type :=
| Ok (a : A)
| Raise (e : exn).
Arguments Ok {A} a.
Arguments Raise {A} e.

#[global] Instance result_ret : MRet result := λ A a, Ok a.
#[global] Instance result_bind : MBind result := λ A B k r,
  match r with
  | Ok a => k a
  | Raise e => Raise e
  end.

Fixpoint rmap {A B} (f : A → result B) (l : list A) : result (list B) :=
  match l with
  | [] => Ok []
  | a :: l' => b ← f a ; bs ← rmap f l' ; Ok (b :: bs)
  end.

(** ** Python strings *)

Module PyStr.

(** [s < t] on [str]. *)
Definition lt (s t : string) : bool := String.ltb s t.

(** [s <= t], the order a sorted list of [str] is kept in. *)
Definition le (s t : string) : Prop := lt t s = false.

(** [s.startswith(p)]. *)
Definition startswith (s p : string) : bool := String.prefix p s.

(** [str(n)] for an [int]. *)
Definition str (n : Z) : string := NilZero.string_of_int (Z.to_int n).

(** [int(s)] on decimal numerals (an optional minus sign and digits);
    any other string is reported as [ValueError]. *)
Definition int (s : string) : result Z :=
  match NilZero.int_of_string s with
  | Some d => Ok (Z.of_int d)
  | None => Raise ValueError
  end.

(** [s.split('.', 1)] when a separator is present. *)
Fixpoint cut (s : string) : option (string * string) :=
  match s with
  | EmptyString => None
  | String c s' =>
      if Ascii.eqb c "." then Some (EmptyString, s')
      else match cut s' with
           | Some (a, b) => Some (String c a, b)
           | None => None
           end
  end.

(** [s.split('.', 2)]. *)
Definition split2 (s : string) : list string :=
  match cut s with
  | None => [s]
  | Some (a, r) =>
      match cut r with
      | None => [a; r]
      | Some (b, c) => [a; b; c]
      end
  end.

(** The string holds no ['.']. *)
Fixpoint nodot (s : string) : bool :=
  match s with
  | EmptyString => true
  | String c s' => negb (Ascii.eqb c ".") && nodot s'
  end.

End PyStr.

(** ** bisect *)

Module Bisect.

(** [bisect.bisect_right(a, x)]: the loop
    [while lo < hi: mid = (lo + hi) // 2; if x < a[mid]: hi = mid else: lo = mid + 1]. *)
Fixpoint bisect_loop (fuel : nat) (a : list string) (x : string) (lo hi : nat) : nat :=
  match fuel with
  | O => lo
  | S fuel' =>
      if (lo <? hi)%nat then
        let mid := ((lo + hi) / 2)%nat in
        match a !! mid with
        | Some y =>
            if PyStr.lt x y then bisect_loop fuel' a x lo mid
            else bisect_loop fuel' a x (S mid) hi
        | None => lo
        end
      else lo
  end.

Definition bisect_right (a : list string) (x : string) : nat :=
  bisect_loop (S (length a)) a x 0 (length a).

(** [a.insert(i, x)] for [0 <= i <= len(a)]. *)
Definition list_insert_at (a : list string) (i : nat) (x : string) : list string :=
  take i a ++ x :: drop i a.

(** [bisect.insort_right(a, x)]. *)
Definition insort_right (a : list string) (x : string) : list string :=
  list_insert_at a (bisect_right a x) x.

End Bisect.

(** ** SparseMatrix *)

Module SparseMatrix.

Import PyStr.

(** The object's only field is [self.list]. *)
Abbreviation t := (list string).

Definition separator : string := ".".

Definition init : t := [].

(** The token written by [__setitem__]:
    [str(key[0]) + separator + str(key[1]) + separator + str(value)];
    [value] is the payload already converted by [str]. *)
Definition token (key : Z * Z) (value : string) : string :=
  str key.1 ++ separator ++ str key.2 ++ separator ++ value.

(** [bisearch(arr, target)]: binary search on a prefix. *)
Fixpoint bisearch_loop (fuel : nat) (arr : list string) (target : string)
    (low high : Z) : nat :=
  match fuel with
  | O => length arr
  | S fuel' =>
      if high >=? low then
        let ix := (low + high) / 2 in
        match arr !! Z.to_nat ix with
        | Some a =>
            if startswith a target then Z.to_nat ix
            else if lt target a then bisearch_loop fuel' arr target low (ix - 1)
            else bisearch_loop fuel' arr target (ix + 1) high
        | None => length arr
        end
      else length arr
  end.

Definition bisearch (arr : list string) (target : string) : nat :=
  bisearch_loop (S (length arr)) arr target 0 (Z.of_nat (length arr) - 1).

(** [__find_index(search_list, item)]; the bound compared with is
    [len(self.list)], and every caller passes [self.list]. *)
Definition find_index' (self search_list : t) (item : Z * Z) : option nat :=
  let index := bisearch search_list (str item.1 ++ separator ++ str item.2 ++ separator) in
  if decide (index ≠ length self) then Some index else None.

Definition find_index (self : t) (coordinates : Z * Z) : option nat :=
  find_index' self self coordinates.

(** [__setitem__(key, value)]. *)
Definition setitem (self : t) (key : Z * Z) (value : string) : t :=
  match find_index self key with
  | None => Bisect.insort_right self (token key value)
  | Some index => <[index := token key value]> self
  end.

(** [__contains__(item)]: the target has no trailing separator. *)
Definition contains (self : t) (item : Z * Z) : bool :=
  let index := bisearch self (str item.1 ++ separator ++ str item.2) in
  bool_decide (index ≠ length self).

(** [get_values(array, index)], a static method of two arguments. *)
Definition get_values (array : list string) (index : Z) : result (Z * Z * string) :=
  if (index <? 0) || (index >=? Z.of_nat (length array)) then Raise IndexError
  else
    match array !! Z.to_nat index with
    | None => Raise IndexError
    | Some value =>
        match split2 value with
        | [s0; s1; s2] => a ← int s0 ; b ← int s1 ; Ok (a, b, s2)
        | [s0; s1] => a ← int s0 ; b ← int s1 ; Raise IndexError
        | _ => a ← int value ; Raise IndexError
        end
    end.

(** [find_edge(coordinates)] evaluates [self.find_index(coordinates)] and
    then calls [self.get_values] with that single argument; [get_values]
    takes two, so the call raises [TypeError] whatever the index is. *)
Definition find_edge (self : t) (coordinates : Z * Z) : result (option string) :=
  let _ := find_index self coordinates in
  Raise TypeError.

(** [__getitem__(key)]. *)
Definition getitem (self : t) (key : Z * Z) : result string :=
  value ← find_edge self key;
  match value with
  | None => Raise KeyError
  | Some v => Ok v
  end.

(** The two scans of [__find_children]: downwards from [index - 1] and
    upwards from [index + 1], while the token starts with the prefix. *)
Fixpoint scan_down (search_list : list string) (p : string) (n : nat) : list nat :=
  match n with
  | O => []
  | S idx =>
      match search_list !! idx with
      | Some s => if startswith s p then idx :: scan_down search_list p idx else []
      | None => []
      end
  end.

Fixpoint scan_up (fuel : nat) (search_list : list string) (p : string) (idx : nat) : list nat :=
  match fuel with
  | O => []
  | S fuel' =>
      match search_list !! idx with
      | Some s => if startswith s p then idx :: scan_up fuel' search_list p (S idx) else []
      | None => []
      end
  end.

(** [__find_children(search_list, item)]. *)
Definition find_children' (search_list : list string) (item : Z)
    : result (option (list (Z * string))) :=
  let p := str item ++ separator in
  let index := bisearch search_list p in
  if decide (index ≠ length search_list) then
    let child idx :=
      current ← get_values search_list (Z.of_nat idx) ; Ok (current.1.2, current.2) in
    first ← child index;
    down ← rmap child (scan_down search_list p index);
    up ← rmap child (scan_up (length search_list) search_list p (S index));
    Ok (Some (first :: down ++ up))
  else Ok None.

Definition find_children (self : t) (item : Z) : result (option (list (Z * string))) :=
  find_children' self item.

(** [get_parents(i)]: the mirror list keyed by destination, then the
    children scan (run twice by the source, with equal results). *)
Definition mirror_token (item : string) : result string :=
  match split2 item with
  | [parent; child; props] => Ok (child ++ "." ++ parent ++ "." ++ props)
  | _ => Raise ValueError
  end.

Fixpoint mirror (copy : list string) (reverse : list string) : result (list string) :=
  match copy with
  | [] => Ok reverse
  | item :: copy' =>
      tok ← mirror_token item;
      mirror copy' (Bisect.insort_right reverse tok)
  end.

Definition get_parents (self : t) (i : Z) : result (list Z) :=
  reverse ← mirror self [];
  children ← find_children' reverse i;
  match children with
  | Some _ =>
      again ← find_children' reverse i;
      match again with
      | Some l => Ok (l.*1)
      | None => Raise TypeError
      end
  | None => Ok []
  end.

(** *** The edge rewrites of [merge_states]

    [Graph.merge_states] calls [self.edges.change_parent_of_children] and
    [self.edges.change_children_of_parents]; [sparse_matrix.py] defines
    neither.  The two are modelled below from section 4.1 of the
    specification, with these helpers. *)

(** A token read back as [(source, destination, payload)]. *)
Definition parse (item : string) : option (Z * Z * string) :=
  match split2 item with
  | [s0; s1; s2] =>
      match int s0, int s1 with
      | Ok a, Ok b => Some (a, b, s2)
      | _, _ => None
      end
  | _ => None
  end.

(** The token is an edge leaving [i]. *)
Definition has_source (i : Z) (item : string) : bool :=
  match parse item with
  | Some (a, _, _) => bool_decide (a = i)
  | None => false
  end.

(** The token is an edge entering [i]. *)
Definition has_destination (i : Z) (item : string) : bool :=
  match parse item with
  | Some (_, b, _) => bool_decide (b = i)
  | None => false
  end.

(** [self[source, destination] = payload] for every triple, in order. *)
Definition write_back (self : t) (moved : list (Z * Z * string)) : t :=
  foldl (λ acc e, setitem acc (e.1.1, e.1.2) e.2) self moved.

(** Modelled from the spec: [change_parent_of_children(new_parent, old_parent)],
    missing from [sparse_matrix.py]; it is [rewrite_source] of section 4.1,
    called by [merge_states] with the index that survives first.  Every edge
    whose source is [old_parent] is redirected to originate from
    [new_parent]; when the rewritten pair collides with an existing entry the
    later write wins.  The tokens of [old_parent] are taken out in list order
    and written back with [__setitem__] under [new_parent]. *)
Definition change_parent_of_children (self : t) (new_parent old_parent : Z) : t :=
  let moved := omap parse (filter (λ item, has_source old_parent item = true) self) in
  let kept := filter (λ item, has_source old_parent item ≠ true) self in
  write_back kept ((λ e, (new_parent, e.1.2, e.2)) <$> moved).

(** Modelled from the spec: [change_children_of_parents(old_child, new_child)],
    missing from [sparse_matrix.py]; it is [rewrite_destination] of section
    4.1, called by [merge_states] with the retired index first.  Every edge
    whose destination is [old_child] is redirected to [new_child], the later
    write winning on a collision. *)
Definition change_children_of_parents (self : t) (old_child new_child : Z) : t :=
  let moved := omap parse (filter (λ item, has_destination old_child item = true) self) in
  let kept := filter (λ item, has_destination old_child item ≠ true) self in
  write_back kept ((λ e, (e.1.1, new_child, e.2)) <$> moved).

(** [__len__]. *)
Definition len (self : t) : Z := Z.of_nat (length self).

(** *** Representation invariant and abstraction

    The list is sorted, holds only tokens written by [__setitem__], and
    holds at most one token per key. *)
Record wf (l : t) : Prop := {
  wf_sorted : StronglySorted PyStr.le l;
  wf_tokens : ∀ x, x ∈ l → ∃ k v, x = token k v;
  wf_keys : ∀ i j k v v',
    l !! i = Some (token k v) → l !! j = Some (token k v') → i = j
}.

Definition stored (l : t) (key : Z * Z) (v : string) : Prop := token key v ∈ l.

Definition key_prefix (k : Z * Z) : string :=
  str k.1 ++ separator ++ str k.2 ++ separator.

(** The edge [k] is present, with some payload. *)
Definition has_edge (l : t) (k : Z * Z) : Prop := ∃ v, stored l k v.

(** The indices [__find_children] visits once a token is found at [index]. *)
Definition visited (l : t) (p : string) (index : nat) : list nat :=
  index :: scan_down l p index ++ scan_up (length l) l p (S index).

(** The pair [__find_children] reports for the token at an index. *)
Definition entry_at (l : t) (j : nat) : Z * string :=
  match l !! j ≫= parse with
  | Some (_, b, v) => (b, v)
  | None => (0, "")
  end.

End SparseMatrix.

(** ** State *)

(** Object identities, the values of [id(state)]. *)
Abbreviation ref := positive.

(** Modelled from the spec: the class [StateProperties], whose file
    [state_properties.py] is not among the sources.  By section 3 it is the
    canonical representation of the template list of a state; [graph.py]
    and [state.py] read its field [log_templates]. *)
Record StateProperties : Type := mkStateProperties {
  log_templates : list string
}.

(** Modelled from the spec: [StateProperties.get_prop_hash], missing with
    the class.  Section 3 keys the properties by a content hash under which
    states with identical templates share one instance; the hash is taken
    collision-free, as the canonical code of the template list. *)
Definition get_prop_hash (p : StateProperties) : Z :=
  Z.pos (encode (log_templates p)).

(** [State(log_templates, is_terminal)], with [__slots__ = ['properties', 'is_terminal']]. *)
Record State : Type := mkState {
  properties : StateProperties;
  is_terminal : bool
}.

#[global] Instance State_inhabited : Inhabited State :=
  populate (mkState (mkStateProperties []) false).

(** [template_matches_state(template, state)]. *)
Definition template_matches_state (template : string) (state : State) : bool :=
  bool_decide (template ∈ log_templates (properties state)).

(** [State.is_equivalent]. *)
Definition is_equivalent (self other : State) : bool :=
  bool_decide (log_templates (properties self) = log_templates (properties other)).

(** [State.is_equivalent_weak]. *)
Definition is_equivalent_weak (self other : State) : bool :=
  existsb (λ template, bool_decide (template ∈ log_templates (properties other)))
          (log_templates (properties self)).

(** ** Graph *)

(** [__slots__] of [Graph], without the syntax tree, which no method writes. *)
Record Graph : Type := mkGraph {
  edges : SparseMatrix.t;
  states : gmap Z ref;
  state_indices_by_id : gmap ref Z;
  prop_by_hash : gmap Z StateProperties;
  start_node : option ref
}.

(** The state objects and the graph that refers to them. *)
Record world : Type := mkWorld {
  heap : gmap ref State;
  graph : Graph
}.

Definition set_edges (e : SparseMatrix.t) (g : Graph) : Graph :=
  mkGraph e (states g) (state_indices_by_id g) (prop_by_hash g) (start_node g).
Definition set_states (s : gmap Z ref) (g : Graph) : Graph :=
  mkGraph (edges g) s (state_indices_by_id g) (prop_by_hash g) (start_node g).
Definition set_state_indices_by_id (i : gmap ref Z) (g : Graph) : Graph :=
  mkGraph (edges g) (states g) i (prop_by_hash g) (start_node g).
Definition set_prop_by_hash (p : gmap Z StateProperties) (g : Graph) : Graph :=
  mkGraph (edges g) (states g) (state_indices_by_id g) p (start_node g).
Definition set_start_node (n : option ref) (g : Graph) : Graph :=
  mkGraph (edges g) (states g) (state_indices_by_id g) (prop_by_hash g) n.

(** Methods: the outcome and the world left behind. *)
Definition M (A : Type) : Type := world → result A * world.

#[global] Instance M_ret : MRet M := λ A a w, (Ok a, w).
#[global] Instance M_bind : MBind M := λ A B k m w,
  match m w with
  | (Ok a, w') => k a w'
  | (Raise e, w') => (Raise e, w')
  end.

Definition raise {A} (e : exn) : M A := λ w, (Raise e, w).
Definition lift {A} (r : result A) : M A := λ w, (r, w).
Definition self : M Graph := λ w, (Ok (graph w), w).
Definition update (f : Graph → Graph) : M () := λ w, (Ok (), mkWorld (heap w) (f (graph w))).
(** Reading and writing the fields of a state object. *)
Definition deref (s : ref) : M State := λ w, (Ok (heap w !!! s), w).
Definition assign (s : ref) (f : State → State) : M () :=
  λ w, (Ok (), mkWorld (<[s := f (heap w !!! s)]> (heap w)) (graph w)).
(** [d[k]] on a dict. *)
Definition dict_get `{Countable K} {V} (d : gmap K V) (k : K) : result V :=
  match d !! k with
  | Some v => Ok v
  | None => Raise KeyError
  end.
Definition subscript `{Countable K} {V} (d : gmap K V) (k : K) : M V :=
  lift (dict_get d k).

Module Graph.

(** [Graph(syntax_tree, start_node)]. *)
Definition init (start_node : option ref) : Graph :=
  mkGraph SparseMatrix.init ∅ ∅ ∅ start_node.

(** [state in self]. *)
Definition contains (g : Graph) (item : ref) : bool :=
  bool_decide (is_Some (state_indices_by_id g !! item)).

(** [size()] and [__len__]. *)
Definition size (g : Graph) : Z := Z.of_nat (size (states g)).


(** The interning step shared by [add_state] and [merge_states]. *)
Definition intern (state : ref) : M () :=
  g ← self;
  st ← deref state;
  match prop_by_hash g !! get_prop_hash (properties st) with
  | Some p => assign state (λ st, mkState p (is_terminal st))
  | None =>
      update (set_prop_by_hash (<[get_prop_hash (properties st) := properties st]> (prop_by_hash g)))
  end.

(** [add_state(state)]. *)
Definition add_state (state : ref) : M () :=
  g ← self;
  if contains g state then raise StateAlreadyExistsException
  else
    let curr_index := Z.of_nat (base.size (states g)) in
    _ ← update (set_states (<[curr_index := state]> (states g)));
    _ ← update (set_state_indices_by_id (<[state := curr_index]> (state_indices_by_id g)));
    intern state.

(** [add_edge(start, end, props)]; [props] is [str(props)]. *)
Definition add_edge (start end_ : ref) (props : string) : M bool :=
  g ← self;
  match state_indices_by_id g !! start, state_indices_by_id g !! end_ with
  | Some start_index, Some end_index =>
      if negb (SparseMatrix.contains (edges g) (start_index, end_index)) then
        _ ← update (set_edges (SparseMatrix.setitem (edges g) (start_index, end_index) props));
        mret true
      else mret false
  | _, _ => mret false
  end.

(** [update_edge(start, end, passes)]. *)
Definition update_edge (start end_ : ref) (passes : Z) : M bool :=
  g ← self;
  match state_indices_by_id g !! start, state_indices_by_id g !! end_ with
  | Some start_index, Some end_index =>
      if SparseMatrix.contains (edges g) (start_index, end_index) then
        v ← lift (SparseMatrix.getitem (edges g) (start_index, end_index));
        n ← lift (PyStr.int v);
        _ ← update (set_edges (SparseMatrix.setitem (edges g) (start_index, end_index)
                                 (PyStr.str (n + passes))));
        mret true
      else mret false
  | _, _ => mret false
  end.

(** Lines 86 to 102 of [merge_states]: the writes to [state1], to
    [start_node] and to the interning table. *)
Definition absorb (state1 state2 : ref) : M () :=
  s1 ← deref state1;
  s2 ← deref state2;
  let props :=
    (log_templates (properties s1) ++
     filter (λ temp, temp ∉ log_templates (properties s1)) (log_templates (properties s2)))%list in
  _ ← assign state1 (λ st, mkState (mkStateProperties props) (is_terminal st));
  s2 ← deref state2;
  _ ← (if is_terminal s2 then assign state1 (λ st, mkState (properties st) true)
       else mret ());
  g ← self;
  _ ← (if bool_decide (Some state2 = start_node g) then update (set_start_node (Some state1))
       else mret ());
  intern state1.

(** Lines 104 to 108: the two rewrites of the adjacency index. *)
Definition rewire (state1 state2 : ref) : M () :=
  g ← self;
  i1 ← subscript (state_indices_by_id g) state1;
  i2 ← subscript (state_indices_by_id g) state2;
  _ ← update (set_edges (SparseMatrix.change_parent_of_children (edges g) i1 i2));
  g ← self;
  i2 ← subscript (state_indices_by_id g) state2;
  i1 ← subscript (state_indices_by_id g) state1;
  update (set_edges (SparseMatrix.change_children_of_parents (edges g) i2 i1)).

(** Lines 110 and 111: [del] raises [KeyError] on a missing key. *)
Definition retire (state2 : ref) : M () :=
  g ← self;
  i2 ← subscript (state_indices_by_id g) state2;
  _ ← (if bool_decide (is_Some (states g !! i2)) then update (set_states (delete i2 (states g)))
       else raise KeyError);
  g ← self;
  if bool_decide (is_Some (state_indices_by_id g !! state2))
  then update (set_state_indices_by_id (delete state2 (state_indices_by_id g)))
  else raise KeyError.

(** [merge_states(state1, state2)]. *)
Definition merge_states (state1 state2 : ref) : M () :=
  _ ← absorb state1 state2;
  _ ← rewire state1 state2;
  retire state2.

(** [get_outgoing_states(state)]; [None] is Python's [None]. *)
Definition get_outgoing_states (state : ref) : M (option (list ref)) :=
  g ← self;
  if contains g state then
    i ← subscript (state_indices_by_id g) state;
    results ← lift (SparseMatrix.find_children (edges g) i);
    match results with
    | Some results =>
        l ← lift (rmap (λ result : Z * string, dict_get (states g) result.1) results);
        mret (Some l)
    | None => mret (Some [])
    end
  else mret None.

(** [get_outgoing_states_not_self(current)]. *)
Definition get_outgoing_states_not_self (current : ref) : M (list ref) :=
  outgoing ← get_outgoing_states current;
  match outgoing with
  | Some (x :: l) => mret (filter (λ y, y ≠ current) (x :: l))
  | _ => mret []
  end.

(** [get_incoming_states(state)]. *)
Definition get_incoming_states (state : ref) : M (option (list ref)) :=
  g ← self;
  if contains g state then
    i ← subscript (state_indices_by_id g) state;
    results ← lift (SparseMatrix.get_parents (edges g) i);
    match results with
    | [] => mret (Some [])
    | _ =>
        l ← lift (rmap (λ result : Z, dict_get (states g) result) results);
        mret (Some l)
    end
  else mret None.

End Graph.

(** ** Trace matching *)

(** [random.choice]: the generator is the sequence of numbers it will draw;
    a draw [n] selects the element at [n mod len(seq)]. *)
Definition rng : Type := list nat.

Definition random_choice {A} (seq : list A) (r : rng) : result A * rng :=
  match seq with
  | [] => (Raise IndexError, r)
  | a :: _ =>
      match r with
      | [] => (Ok a, [])
      | n :: r' => (Ok (nth (n mod length seq)%nat seq a), r')
      end
  end.

(** The outcome of a call that may rebind the caller's list and draws
    random numbers: the value or exception, the caller's list afterwards,
    the generator afterwards. *)
Record run (A : Type) : Type := mkRun {
  outcome : result A;
  trace_after : list string;
  rng_after : rng
}.
Arguments mkRun {A} _ _ _.
Arguments outcome {A} _.
Arguments trace_after {A} _.
Arguments rng_after {A} _.

Section Matching.

(** [self.syntax_tree.search(line)] gives the template of a line, or
    [None]; the value used is [template.name]. *)
Variable search : string → option string.

(** The world is only read. *)
Variable w : world.

Definition outgoing (state : option ref) : result (option (list ref)) :=
  match state with
  | Some s => (Graph.get_outgoing_states s w).1
  | None => Ok None
  end.

(** [filter(lambda s: template_matches_state(name, s), states)]; iterating
    over [None] raises [TypeError]. *)
Definition matching (name : string) (l : option (list ref)) : result (list ref) :=
  match l with
  | Some l => Ok (filter (λ s, template_matches_state name (heap w !!! s) = true) l)
  | None => Raise TypeError
  end.

(** [[s for s in self.get_outgoing_states(state) if s.is_terminal]]. *)
Definition terminal_successors (state : ref) : result (list ref) :=
  l ← outgoing (Some state);
  match l with
  | Some l => Ok (filter (λ s, is_terminal (heap w !!! s) = true) l)
  | None => Raise TypeError
  end.

(** [match_trace_rec(current_state, trace)]: [res] is kept in order. *)
Fixpoint match_trace_loop (current_state : ref) (res : list ref) (trace : list string)
    (r : rng) : result (option (list ref)) * rng :=
  match trace with
  | [] =>
      match terminal_successors current_state with
      | Ok (_ :: _) => (Ok (Some res), r)
      | Ok [] => (Ok None, r)
      | Raise e => (Raise e, r)
      end
  | line :: trace' =>
      match search line with
      | None => (Ok None, r)
      | Some name =>
          match (children ← outgoing (Some current_state); matching name children) with
          | Raise e => (Raise e, r)
          | Ok [] => (Ok None, r)
          | Ok successor =>
              match random_choice successor r with
              | (Raise e, r') => (Raise e, r')
              | (Ok next, r') => match_trace_loop next (res ++ [next]) trace' r'
              end
          end
      end
  end.

Definition match_trace_rec (current_state : ref) (trace : list string) (r : rng)
    : result (option (list ref)) * rng :=
  match_trace_loop current_state [current_state] trace r.

(** [match_trace(trace)]. *)
Definition match_trace (trace : list string) (r : rng) : run (option (list ref)) :=
  match trace with
  | [] => mkRun (Ok (Some [])) trace r
  | line0 :: rest =>
      match search line0 with
      | None => mkRun (Ok None) trace r
      | Some name =>
          match (l ← outgoing (start_node (graph w)); matching name l) with
          | Raise e => mkRun (Raise e) trace r
          | Ok [] => mkRun (Ok None) trace r
          | Ok root_children =>
              match random_choice root_children r with
              | (Raise e, r1) => mkRun (Raise e) trace r1
              | (Ok current_state, r1) =>
                  if template_matches_state name (heap w !!! current_state) then
                    match rest with
                    | [] =>
                        match terminal_successors current_state with
                        | Ok (_ :: _) => mkRun (Ok (Some [current_state])) trace r1
                        | Ok [] => mkRun (Ok None) trace r1
                        | Raise e => mkRun (Raise e) trace r1
                        end
                    | line1 :: rest' =>
                        (* trace[:] = trace[1:] *)
                        let trace := rest in
                        match search line1 with
                        | None => mkRun (Ok None) trace r1
                        | Some name =>
                            match (children ← outgoing (Some current_state);
                                   matching name children) with
                            | Raise e => mkRun (Raise e) trace r1
                            | Ok [] => mkRun (Ok None) trace r1
                            | Ok successor =>
                                match random_choice successor r1 with
                                | (Raise e, r2) => mkRun (Raise e) trace r2
                                | (Ok next_node, r2) =>
                                    match match_trace_rec next_node rest' r2 with
                                    | (Ok (Some tail), r3) =>
                                        mkRun (Ok (Some (current_state :: tail))) trace r3
                                    | (Ok None, r3) => mkRun (Ok None) trace r3
                                    | (Raise e, r3) => mkRun (Raise e) trace r3
                                    end
                                end
                            end
                        end
                    end
                  else mkRun (Ok None) trace r1
              end
          end
      end
  end.

End Matching.

(** ** Invariants and abstractions of the statements *)

(** The interning table maps every key to a properties object with that hash. *)
Definition intern_ok (g : Graph) : Prop :=
  map_Forall (λ h p, get_prop_hash p = h) (prop_by_hash g).

(** What every graph built by the methods satisfies. *)
Definition graph_ok (g : Graph) : Prop :=
  SparseMatrix.wf (edges g) ∧ intern_ok g.



(** The template list [merge_states] gives [state1]. *)
Definition merged_templates (s1 s2 : State) : list string :=
  (log_templates (properties s1) ++
   filter (λ temp, temp ∉ log_templates (properties s1)) (log_templates (properties s2)))%list.

(** The dictionary a sequence of [__setitem__] calls stands for. *)
Definition written (ops : list (Z * Z * string)) : gmap (Z * Z) string :=
  foldl (λ m op, <[(op.1.1, op.1.2) := op.2]> m) ∅ ops.

(** ** Trace matching: what an unambiguous walk is *)

Section MatchingSpec.

Variable search : string → option string.
Variable w : world.

(** The candidates of a step: the outgoing states of [state] whose
    templates contain the template of [line]. *)
Definition candidates (state : option ref) (name : string) : result (list ref) :=
  l ← outgoing w state; matching w name l.




End MatchingSpec.

(** ** Example worlds *)

Module Examples.

Definition st (templates : list string) (terminal : bool) : State :=
  mkState (mkStateProperties templates) terminal.

(** Twelve state objects, with identities 1 to 12. *)
Definition objects : gmap ref State :=
  list_to_map
    [(1%positive, st ["A"] false); (2%positive, st ["B"] true);
     (3%positive, st ["C"] false); (4%positive, st ["D"] false);
     (5%positive, st ["E"] false); (6%positive, st ["F"] false);
     (7%positive, st ["G"] false); (8%positive, st ["H"] false);
     (9%positive, st ["I"] false); (10%positive, st ["J"] false);
     (11%positive, st ["K"] false); (12%positive, st ["L"] false)].

(** [Graph(syntax_tree)] next to the objects. *)
Definition fresh : world := mkWorld objects (Graph.init None).

(** Runs the calls in order, whatever they return. *)
Definition exec (calls : list (world → world)) (w : world) : world :=
  foldl (λ w call, call w) w calls.

Definition do_add_state (s : ref) (w : world) : world := (Graph.add_state s w).2.
Definition do_add_edge (s e : ref) (props : string) (w : world) : world :=
  (Graph.add_edge s e props w).2.

(** Three states, [1 -> 2 -> 3]. *)
Definition chain : world :=
  exec [do_add_state 1%positive; do_add_state 2%positive; do_add_state 3%positive;
        do_add_edge 1%positive 2%positive "1"; do_add_edge 2%positive 3%positive "1"] fresh.

(** Eleven states at indices 0 to 10 and the edge [0 -> 10]. *)
Definition eleven : world :=
  exec [do_add_state 1%positive; do_add_state 2%positive; do_add_state 3%positive;
        do_add_state 4%positive; do_add_state 5%positive; do_add_state 6%positive;
        do_add_state 7%positive; do_add_state 8%positive; do_add_state 9%positive;
        do_add_state 10%positive; do_add_state 11%positive;
        do_add_edge 1%positive 11%positive "1"] fresh.

(** Root 1 with the path [1 -> 3 -> 2]; state 2 is terminal. *)
Definition rooted : world :=
  exec [do_add_state 1%positive; do_add_state 3%positive; do_add_state 2%positive;
        do_add_edge 1%positive 3%positive "1"; do_add_edge 3%positive 2%positive "1"]
       (mkWorld objects (Graph.init (Some 1%positive))).

(** A resolver that takes the line itself as the template name. *)
Definition resolve (line : string) : option string := Some line.

End Examples.

(** ** Consistency of a graph, and sequences of calls *)

(** Every edge joins two indices that [states] holds. *)
Definition closed (g : Graph) : Prop :=
  ∀ k, SparseMatrix.has_edge (edges g) k →
       is_Some (states g !! k.1) ∧ is_Some (states g !! k.2).

(** The calls that change a graph. *)
Inductive call : Type :=
| AddState (state : ref)
| AddEdge (start end_ : ref) (props : string)
| UpdateEdge (start end_ : ref) (passes : Z)
| MergeStates (state1 state2 : ref).

(** The world after a call, whatever the call returns or raises. *)
Definition after (w : world) (c : call) : world :=
  match c with
  | AddState s => (Graph.add_state s w).2
  | AddEdge s t props => (Graph.add_edge s t props w).2
  | UpdateEdge s t passes => (Graph.update_edge s t passes w).2
  | MergeStates a b => (Graph.merge_states a b w).2
  end.

(** The two dictionaries of the graph mirror each other:
    [state_indices_by_id] is the inverse of [states]; and [states] has the
    keys [0 .. size - 1]. *)
Definition mirrored (g : Graph) : Prop :=
  ∀ s i, state_indices_by_id g !! s = Some i ↔ states g !! i = Some s.

Definition dense (g : Graph) : Prop :=
  (∀ i, is_Some (states g !! i) ↔ 0 ≤ i < Graph.size g) ∧ mirrored g.

Definition is_merge (c : call) : bool :=
  match c with
  | MergeStates _ _ => true
  | _ => false
  end.




(** ** Trace matching: walks *)

Section MatchingWalk.

Variable search : string → option string.
Variable w : world.


End MatchingWalk.

(** ** Callers

    [GraphEnv] of [whatthelog/reinforcementlearning/environment.py] walks the
    graph with a stack of states; [Visualizer] of
    [whatthelog/prefixtree/visualizer.py] numbers the templates it labels
    the states with. *)

Module GraphEnv.

(** The loop of [GraphEnv.get_next_node]; the stack is kept top first.  The
    loop pops until [node] is in the graph, and [node] is not assigned in the
    loop; the [IndexError] of a pop from the empty stack is caught and makes
    the method return [None]. *)
Fixpoint get_next_node_loop (g : Graph) (node : ref) (stack : list ref)
    : option ref * list ref :=
  if Graph.contains g node then (Some node, stack)
  else
    match stack with
    | [] => (None, [])
    | _ :: stack' => get_next_node_loop g node stack'
    end.

(** [GraphEnv.get_next_node()]: the value returned and the stack left. *)
Definition get_next_node (g : Graph) (stack : list ref) : option ref * list ref :=
  match stack with
  | [] => (None, [])
  | node :: stack' => get_next_node_loop g node stack'
  end.

End GraphEnv.

Module Visualizer.

(** [Visualizer.get_label(log_templates)]: the label and the
    [label_mapping] left. *)
Definition get_label (label_mapping : gmap string Z) (log_templates : list string)
    : string * gmap string Z :=
  let bracket := bool_decide (1 < length log_templates)%nat in
  let label := if bracket then "[" else "" in
  let '(label, label_mapping) :=
    foldl (λ '(label, label_mapping) log_template,
             let label_mapping :=
               if bool_decide (is_Some (label_mapping !! log_template)) then label_mapping
               else <[log_template := Z.of_nat (size label_mapping)]> label_mapping in
             (label ++ PyStr.str (label_mapping !!! log_template), label_mapping))
          (label, label_mapping) log_templates in
  (if bracket then label ++ "]" else label, label_mapping).

(** The numbers of a label mapping are [0 .. len - 1], each used once. *)
Definition numbered (label_mapping : gmap string Z) : Prop :=
  (∀ k v, label_mapping !! k = Some v → 0 ≤ v < Z.of_nat (size label_mapping)) ∧
  (∀ k1 k2 v, label_mapping !! k1 = Some v → label_mapping !! k2 = Some v → k1 = k2).

End Visualizer.

(** * Theory *)

Module PyStrFacts.
Import PyStr.

Lemma ascii_compare_refl c : Ascii.compare c c = Eq.
Proof. apply N.compare_refl. Qed.

Lemma ascii_compare_lt_trans a b c :
  Ascii.compare a b = Lt → Ascii.compare b c = Lt → Ascii.compare a c = Lt.
Proof. unfold Ascii.compare. rewrite !N.compare_lt_iff. lia. Qed.

Lemma compare_refl s : String.compare s s = Eq.
Proof. induction s as [|c s IH]; simpl; [done|]. by rewrite ascii_compare_refl. Qed.

Lemma compare_lt_trans s t u :
  String.compare s t = Lt → String.compare t u = Lt → String.compare s u = Lt.
Proof.
  revert t u. induction s as [|a s IH]; intros [|b t] [|c u]; simpl; try done.
  destruct (Ascii.compare a b) eqn:Hab; try done.
  - apply Ascii.compare_eq_iff in Hab as ->.
    destruct (Ascii.compare b c); try done. apply IH.
  - destruct (Ascii.compare b c) eqn:Hbc; try done.
    + apply Ascii.compare_eq_iff in Hbc as <-. by rewrite Hab.
    + by rewrite (ascii_compare_lt_trans _ _ _ Hab Hbc).
Qed.

Lemma lt_irrefl s : lt s s = false.
Proof. unfold lt, String.ltb. by rewrite compare_refl. Qed.

Lemma lt_trans s t u : lt s t = true → lt t u = true → lt s u = true.
Proof.
  unfold lt, String.ltb. intros H1 H2.
  destruct (String.compare s t) eqn:E1; try done.
  destruct (String.compare t u) eqn:E2; try done.
  by rewrite (compare_lt_trans _ _ _ E1 E2).
Qed.

Lemma lt_total s t : lt s t = false → lt t s = false → s = t.
Proof.
  unfold lt, String.ltb. rewrite (String.compare_antisym t s).
  destruct (String.compare s t) eqn:E; simpl; try done.
  intros _ _. by apply String.compare_eq_iff.
Qed.

Lemma lt_asym s t : lt s t = true → lt t s = false.
Proof.
  intros H. destruct (lt t s) eqn:E; [|done].
  by rewrite <-(lt_irrefl s), (lt_trans _ _ _ H E).
Qed.

Lemma le_refl s : le s s.
Proof. apply lt_irrefl. Qed.

Lemma le_trans s t u : le s t → le t u → le s u.
Proof.
  unfold le. intros H1 H2. destruct (lt u s) eqn:E; [|done].
  destruct (lt t u) eqn:E'.
  - by rewrite (lt_trans _ _ _ E' E) in H1.
  - rewrite (lt_total _ _ E' H2) in H1. congruence.
Qed.

Lemma lt_le s t : lt s t = true → le s t.
Proof. apply lt_asym. Qed.

Lemma le_lt_trans s t u : le s t → lt t u = true → lt s u = true.
Proof.
  unfold le. intros H1 H2. destruct (lt s t) eqn:E.
  - by eapply lt_trans.
  - by rewrite (lt_total _ _ E H1).
Qed.

Lemma lt_le_trans s t u : lt s t = true → le t u → lt s u = true.
Proof.
  unfold le. intros H1 H2. destruct (lt t u) eqn:E.
  - by eapply lt_trans.
  - by rewrite <-(lt_total _ _ E H2).
Qed.

Lemma append_cons c s t : String c s ++ t = String c (s ++ t).
Proof. reflexivity. Qed.

Lemma append_nil s : "" ++ s = s.
Proof. reflexivity. Qed.

(** [startswith] as a decomposition. *)
Lemma startswith_spec s p : startswith s p = true ↔ ∃ w, s = p ++ w.
Proof.
  unfold startswith. revert s. induction p as [|c p IH]; intros s; simpl.
  - destruct s; split; eauto.
  - destruct s as [|d s]; simpl.
    + split; [done | by intros [w ?]].
    + destruct (ascii_dec c d) as [->|Hne].
      * rewrite IH. split; intros [w Hw]; exists w; rewrite append_cons in *; congruence.
      * split; [done | intros [w ?]; rewrite append_cons in *; congruence].
Qed.

Lemma startswith_app p w : startswith (p ++ w) p = true.
Proof. apply startswith_spec. eauto. Qed.

(** A string that does not start with [p] lies on one side of every
    string that does. *)
Lemma lt_prefix_below p a w :
  startswith a p = false → lt p a = true → lt (p ++ w) a = true.
Proof.
  unfold startswith, lt, String.ltb. revert a.
  induction p as [|c p IH]; intros a; rewrite ?append_cons, ?append_nil; simpl.
  - by destruct a.
  - destruct a as [|d a]; simpl; [done|].
    destruct (ascii_dec c d) as [->|Hne].
    + rewrite ascii_compare_refl. apply IH.
    + intros _. destruct (Ascii.compare c d) eqn:E; try done.
      by apply Ascii.compare_eq_iff in E.
Qed.

Lemma lt_prefix_above p a w :
  startswith a p = false → lt p a = false → lt a (p ++ w) = true.
Proof.
  unfold startswith, lt, String.ltb. revert a.
  induction p as [|c p IH]; intros a; rewrite ?append_cons, ?append_nil; simpl.
  - by destruct a.
  - destruct a as [|d a]; simpl; [done|].
    destruct (ascii_dec c d) as [->|Hne].
    + rewrite ascii_compare_refl. apply IH.
    + intros _. rewrite (Ascii.compare_antisym c d).
      destruct (Ascii.compare d c) eqn:E; try done.
      apply Ascii.compare_eq_iff in E. congruence.
Qed.

Lemma nodot_uint d : nodot (NilEmpty.string_of_uint d) = true.
Proof. induction d; simpl; auto. Qed.

Lemma nodot_str n : nodot (str n) = true.
Proof.
  unfold str. destruct (Z.to_int n) as [d|d]; simpl;
    destruct d; simpl; auto using nodot_uint.
Qed.

Lemma int_str n : int (str n) = Ok n.
Proof.
  unfold int, str. rewrite NilZero.isi.
  - by rewrite DecimalZ.of_to.
  - destruct n; simpl; try done. intros [= H].
    by apply (DecimalPos.Unsigned.to_uint_nonnil p).
  - destruct n; simpl; try done. intros [= H].
    by apply (DecimalPos.Unsigned.to_uint_nonnil p).
Qed.

Lemma str_inj m n : str m = str n → m = n.
Proof. intros H. pose proof (int_str m) as Hm. rewrite H, int_str in Hm. congruence. Qed.

Lemma cut_app a r : nodot a = true → cut (a ++ "." ++ r) = Some (a, r).
Proof.
  change ("." ++ r) with (String "." r).
  induction a as [|c a IH]; rewrite ?append_cons, ?append_nil; [done|].
  cbn [cut nodot]. intros [Hc Ha]%andb_prop. rewrite IH by done.
  by destruct (Ascii.eqb c ".").
Qed.

Lemma app_dot_inj a a' x y :
  nodot a = true → nodot a' = true → a ++ "." ++ x = a' ++ "." ++ y → a = a' ∧ x = y.
Proof.
  intros Ha Ha' H. pose proof (cut_app a x Ha) as E. rewrite H, cut_app in E by done.
  split; congruence.
Qed.

Lemma app_assoc_str (s t u : string) : (s ++ t) ++ u = s ++ t ++ u.
Proof. induction s as [|c s IH]; rewrite ?append_cons, ?append_nil; congruence. Qed.

Lemma app_inv_head_str (s t u : string) : s ++ t = s ++ u → t = u.
Proof. induction s as [|c s IH]; rewrite ?append_cons, ?append_nil; [done|]. intros [=]; auto. Qed.

End PyStrFacts.

Module SparseMatrixFacts.
Import PyStr PyStrFacts SparseMatrix.

Lemma split2_token k v : split2 (token k v) = [str k.1; str k.2; v].
Proof.
  unfold split2, token, separator.
  by rewrite !cut_app by apply nodot_str.
Qed.

Lemma parse_token k v : parse (token k v) = Some (k.1, k.2, v).
Proof. unfold parse. by rewrite split2_token, !int_str. Qed.

(** The search targets of [__find_children] and [__find_index]. *)
Lemma startswith_token_source k v i :
  startswith (token k v) (str i ++ separator) = true ↔ k.1 = i.
Proof.
  rewrite startswith_spec. unfold token, separator. split.
  - intros [w Hw]. rewrite app_assoc_str in Hw.
    apply app_dot_inj in Hw as [?%str_inj _]; auto using nodot_str.
  - intros <-. exists (str k.2 ++ "." ++ v). by rewrite app_assoc_str.
Qed.

Lemma startswith_token_key k v k' :
  startswith (token k v) (str k'.1 ++ separator ++ str k'.2 ++ separator) = true ↔ k = k'.
Proof.
  rewrite startswith_spec. unfold token, separator. split.
  - intros [w Hw]. rewrite !app_assoc_str in Hw.
    apply app_dot_inj in Hw as [?%str_inj Hw]; auto using nodot_str.
    apply app_dot_inj in Hw as [?%str_inj _]; auto using nodot_str.
    destruct k, k'; simpl in *; congruence.
  - intros <-. exists v. by rewrite !app_assoc_str.
Qed.

(** *** Sorted lists *)

Lemma sorted_lookup (l : list string) i j x y :
  StronglySorted le l → (i < j)%nat → l !! i = Some x → l !! j = Some y → le x y.
Proof.
  intros Hs Hij Hi Hj. rewrite <-(take_drop j l) in Hs.
  eapply StronglySorted_app_1_elem_of; [done| |].
  - apply list_elem_of_lookup. exists i. by rewrite lookup_take_lt.
  - apply list_elem_of_lookup. exists 0%nat. rewrite lookup_drop. by rewrite Nat.add_0_r.
Qed.

Lemma sorted_lookup_le (l : list string) i j x y :
  StronglySorted le l → (i ≤ j)%nat → l !! i = Some x → l !! j = Some y → le x y.
Proof.
  intros Hs Hij Hi Hj. destruct (decide (i = j)) as [->|].
  - assert (x = y) as -> by congruence. apply le_refl.
  - apply (sorted_lookup l i j); [done|lia|done..].
Qed.

(** In a sorted list the tokens that start with [p] are contiguous. *)
Lemma prefix_not_below (l : list string) p i j x y :
  StronglySorted le l → (i ≤ j)%nat → l !! i = Some x → l !! j = Some y →
  startswith x p = false → lt p x = true → startswith y p = false.
Proof.
  intros Hs Hij Hi Hj Hx Hlt. destruct (startswith y p) eqn:E; [|done].
  apply startswith_spec in E as [w ->].
  pose proof (sorted_lookup_le _ _ _ _ _ Hs Hij Hi Hj) as Hle.
  unfold le in Hle. by rewrite (lt_prefix_below _ _ w Hx Hlt) in Hle.
Qed.

Lemma prefix_not_above (l : list string) p i j x y :
  StronglySorted le l → (j ≤ i)%nat → l !! i = Some x → l !! j = Some y →
  startswith x p = false → lt p x = false → startswith y p = false.
Proof.
  intros Hs Hij Hi Hj Hx Hlt. destruct (startswith y p) eqn:E; [|done].
  apply startswith_spec in E as [w ->].
  pose proof (sorted_lookup_le _ _ _ _ _ Hs Hij Hj Hi) as Hle.
  unfold le in Hle. by rewrite (lt_prefix_above _ _ w Hx Hlt) in Hle.
Qed.

Lemma prefix_contiguous (l : list string) p i j k x y z :
  StronglySorted le l → (i ≤ j ≤ k)%nat →
  l !! i = Some x → l !! j = Some y → l !! k = Some z →
  startswith x p = true → startswith z p = true → startswith y p = true.
Proof.
  intros Hs [Hij Hjk] Hi Hj Hk Hx Hz.
  destruct (startswith y p) eqn:Hy; [done|].
  destruct (lt p y) eqn:Hlt.
  - by rewrite (prefix_not_below _ _ _ _ _ _ Hs Hjk Hj Hk Hy Hlt) in Hz.
  - by rewrite (prefix_not_above _ _ _ _ _ _ Hs Hij Hj Hi Hy Hlt) in Hx.
Qed.

(** *** [bisearch] *)

(** Whatever the list, an index below its length that [bisearch] returns
    holds a token starting with the target. *)
Lemma bisearch_loop_sound fuel arr target low high :
  bisearch_loop fuel arr target low high ≠ length arr →
  ∃ a, arr !! bisearch_loop fuel arr target low high = Some a ∧ startswith a target = true.
Proof.
  revert low high. induction fuel as [|fuel IH]; intros low high; simpl; [done|].
  destruct (high >=? low); [|done].
  destruct (arr !! Z.to_nat ((low + high) / 2)) as [a|] eqn:Ha; [|done].
  destruct (startswith a target) eqn:Hp; [eauto|].
  destruct (lt target a); apply IH.
Qed.

(** The fuel of [bisearch] is enough: the interval halves at each turn, so
    any amount above its width gives the same answer. *)
Lemma bisearch_loop_fuel fuel fuel' arr target low high :
  0 ≤ low → high < Z.of_nat (length arr) →
  high - low + 1 ≤ Z.of_nat fuel → high - low + 1 ≤ Z.of_nat fuel' →
  bisearch_loop fuel arr target low high = bisearch_loop fuel' arr target low high.
Proof.
  revert fuel' low high.
  induction fuel as [|fuel IH]; intros [|fuel'] low high Hlow Hhigh Hf Hf'; simpl; try done.
  - destruct (Z.geb_spec high low); [lia|done].
  - destruct (Z.geb_spec high low); [lia|done].
  - destruct (Z.geb_spec high low) as [Hge|]; [|done].
    assert (low ≤ (low + high) / 2 ≤ high) as Hix.
    { split; [apply Z.div_le_lower_bound | apply Z.div_le_upper_bound]; lia. }
    destruct (arr !! Z.to_nat ((low + high) / 2)); [|done].
    destruct (startswith s target); [done|].
    destruct (lt target s); apply IH; lia.
Qed.

Lemma bisearch_sound arr target :
  bisearch arr target ≠ length arr →
  ∃ a, arr !! bisearch arr target = Some a ∧ startswith a target = true.
Proof. apply bisearch_loop_sound. Qed.

(** On a sorted list the search finds a token starting with the target
    whenever there is one. *)
Lemma bisearch_loop_complete fuel arr target low high :
  StronglySorted le arr →
  0 ≤ low → high < Z.of_nat (length arr) → high - low + 1 ≤ Z.of_nat fuel →
  (∃ i a, low ≤ Z.of_nat i ≤ high ∧ arr !! i = Some a ∧ startswith a target = true) →
  bisearch_loop fuel arr target low high ≠ length arr.
Proof.
  intros Hs. revert low high.
  induction fuel as [|fuel IH]; intros low high Hlow Hhigh Hfuel (i & a & Hi & Ha & Hp).
  { lia. }
  simpl. destruct (Z.geb_spec high low) as [Hge|]; [|lia].
  set (ix := (low + high) / 2).
  assert (low ≤ ix ≤ high) as Hix.
  { unfold ix. split; [apply Z.div_le_lower_bound | apply Z.div_le_upper_bound]; lia. }
  destruct (arr !! Z.to_nat ix) as [b|] eqn:Hb; cycle 1.
  { apply lookup_ge_None in Hb. lia. }
  destruct (startswith b target) eqn:Hbp.
  { apply lookup_lt_Some in Hb. lia. }
  destruct (lt target b) eqn:Hlt.
  - apply IH; [lia..|]. exists i, a. split; [|done].
    destruct (decide (Z.of_nat i < ix)); [lia|].
    assert (Z.to_nat ix ≤ i)%nat as Hle by lia.
    by rewrite (prefix_not_below _ _ _ _ _ _ Hs Hle Hb Ha Hbp Hlt) in Hp.
  - apply IH; [lia..|]. exists i, a. split; [|done].
    destruct (decide (ix < Z.of_nat i)); [lia|].
    assert (i ≤ Z.to_nat ix)%nat as Hle by lia.
    by rewrite (prefix_not_above _ _ _ _ _ _ Hs Hle Hb Ha Hbp Hlt) in Hp.
Qed.

Lemma bisearch_complete arr target i a :
  StronglySorted le arr → arr !! i = Some a → startswith a target = true →
  bisearch arr target ≠ length arr.
Proof.
  intros Hs Ha Hp. pose proof (lookup_lt_Some _ _ _ Ha).
  apply bisearch_loop_complete; [done|lia..|]. exists i, a. split; [lia|done].
Qed.

Lemma bisearch_none arr target :
  (∀ a, a ∈ arr → startswith a target = false) → bisearch arr target = length arr.
Proof.
  intros H. destruct (decide (bisearch arr target = length arr)) as [|Hne]; [done|].
  apply bisearch_sound in Hne as (a & Ha & Hp).
  rewrite H in Hp; [done|]. by eapply list_elem_of_lookup_2.
Qed.

(** *** [bisect.insort_right] *)

Import Bisect.

Lemma bisect_loop_spec fuel (a : list string) x lo hi :
  StronglySorted le a →
  (lo ≤ hi ≤ length a)%nat → (hi - lo ≤ fuel)%nat →
  (∀ i y, (i < lo)%nat → a !! i = Some y → lt x y = false) →
  (∀ i y, (hi ≤ i)%nat → a !! i = Some y → lt x y = true) →
  (bisect_loop fuel a x lo hi ≤ length a)%nat ∧
  (∀ i y, (i < bisect_loop fuel a x lo hi)%nat → a !! i = Some y → lt x y = false) ∧
  (∀ i y, (bisect_loop fuel a x lo hi ≤ i)%nat → a !! i = Some y → lt x y = true).
Proof.
  intros Hs. revert lo hi.
  induction fuel as [|fuel IH]; intros lo hi Hb Hfuel Hlo Hhi; cbn [bisect_loop].
  { split; [lia|]. split; [done|]. intros i y ?. apply Hhi. lia. }
  destruct (Nat.ltb_spec lo hi) as [Hlt|Hge]; cycle 1.
  { split; [lia|]. split; [done|]. intros i y ?. apply Hhi. lia. }
  pose proof (Nat.Div0.div_lt_upper_bound (lo + hi) 2 hi) as Hup.
  pose proof (Nat.div_le_lower_bound (lo + hi) 2 lo) as Hdown.
  set (mid := ((lo + hi) / 2)%nat) in *.
  assert (lo ≤ mid < hi)%nat as Hmid by lia.
  destruct (a !! mid) as [y|] eqn:Hy; cycle 1.
  { apply lookup_ge_None in Hy. lia. }
  destruct (lt x y) eqn:Hxy.
  - apply IH; [lia..|done|]. intros i z Hi Hz.
    eapply lt_le_trans; [done|]. by eapply (sorted_lookup_le a mid i).
  - apply IH; [lia..| |done]. intros i z Hi Hz.
    assert (le z y) as Hzy by (eapply (sorted_lookup_le a i mid); [done|lia|done..]).
    apply (le_trans z y x Hzy Hxy).
Qed.

(** Likewise for [bisect_right]. *)
Lemma bisect_loop_fuel fuel fuel' (a : list string) x lo hi :
  (hi ≤ length a)%nat → (hi - lo ≤ fuel)%nat → (hi - lo ≤ fuel')%nat →
  bisect_loop fuel a x lo hi = bisect_loop fuel' a x lo hi.
Proof.
  revert fuel' lo hi.
  induction fuel as [|fuel IH]; intros [|fuel'] lo hi Hhi Hf Hf'; cbn [bisect_loop]; try done.
  - destruct (Nat.ltb_spec lo hi); [lia|done].
  - destruct (Nat.ltb_spec lo hi); [lia|done].
  - destruct (Nat.ltb_spec lo hi) as [Hlt|]; [|done].
    pose proof (Nat.Div0.div_lt_upper_bound (lo + hi) 2 hi) as Hup.
    pose proof (Nat.div_le_lower_bound (lo + hi) 2 lo) as Hdown.
    set (mid := ((lo + hi) / 2)%nat) in *.
    assert (lo ≤ mid < hi)%nat as Hmid by lia.
    destruct (a !! mid); [|done].
    destruct (lt x s); apply IH; lia.
Qed.

Lemma bisect_right_spec (a : list string) x :
  StronglySorted le a →
  Forall (λ y, le y x) (take (bisect_right a x) a) ∧
  Forall (λ y, lt x y = true) (drop (bisect_right a x) a).
Proof.
  intros Hs.
  destruct (bisect_loop_spec (S (length a)) a x 0 (length a) Hs) as (Hp & Hl & Hr).
  { lia. }
  { lia. }
  { intros i y ?. lia. }
  { intros i y ? Hy%lookup_lt_Some. lia. }
  fold (bisect_right a x) in Hp, Hl, Hr. split; apply Forall_lookup_2.
  - intros i y [Hy Hi]%lookup_take_Some. by apply (Hl i).
  - intros i y Hy. rewrite lookup_drop in Hy. apply (Hr (bisect_right a x + i)%nat); [lia|done].
Qed.

Lemma insort_right_perm (a : list string) x : insort_right a x ≡ₚ x :: a.
Proof.
  unfold insort_right, list_insert_at.
  by rewrite <-Permutation_middle, take_drop.
Qed.

Lemma elem_of_insort_right (a : list string) x y :
  y ∈ insort_right a x ↔ y = x ∨ y ∈ a.
Proof. by rewrite insort_right_perm, elem_of_cons. Qed.

Lemma insort_right_sorted (a : list string) x :
  StronglySorted le a → StronglySorted le (insort_right a x).
Proof.
  intros Hs. destruct (bisect_right_spec a x Hs) as [Hl Hr].
  unfold insort_right, list_insert_at.
  rewrite <-(take_drop (bisect_right a x) a) in Hs.
  apply StronglySorted_app in Hs as (Hlr & Hsl & Hsr).
  apply StronglySorted_app. split_and!; [|done|].
  - intros x1 x2 H1 [->|H2]%elem_of_cons; [|by apply Hlr].
    by eapply Forall_forall in Hl.
  - apply StronglySorted_cons. split; [|done].
    eapply Forall_impl; [exact Hr|]. intros z. apply lt_le.
Qed.

(** *** The representation invariant *)

Lemma token_key_prefix k v : token k v = key_prefix k ++ v.
Proof. unfold token, key_prefix. by rewrite !app_assoc_str. Qed.

Lemma token_inj k v k' v' : token k v = token k' v' → k = k' ∧ v = v'.
Proof.
  intros H. pose proof (parse_token k v) as E. rewrite H, parse_token in E.
  destruct k, k'; simpl in *. split; congruence.
Qed.

Lemma wf_init : wf init.
Proof.
  split.
  - constructor.
  - by intros x ?%elem_of_nil.
  - by intros i j k v v' ?.
Qed.

Lemma find_index_Some l k i :
  wf l → find_index l k = Some i → ∃ v, l !! i = Some (token k v).
Proof.
  intros Hwf. unfold find_index, find_index'. case_decide as Hne; [|done].
  intros [= <-]. apply bisearch_sound in Hne as (a & Ha & Hp).
  destruct (wf_tokens l Hwf a) as (k' & v & ->); [by eapply list_elem_of_lookup_2|].
  apply startswith_token_key in Hp as ->. eauto.
Qed.

Lemma find_index_None l k v : wf l → find_index l k = None → ¬ stored l k v.
Proof.
  intros Hwf. unfold find_index, find_index'. case_decide as Hne; [done|].
  intros _ [i Hi]%list_elem_of_lookup.
  apply (bisearch_complete l (key_prefix k) i _ (wf_sorted l Hwf) Hi); [|done].
  by apply startswith_token_key.
Qed.

Lemma find_index_stored l k v :
  wf l → stored l k v → ∃ i, find_index l k = Some i ∧ l !! i = Some (token k v).
Proof.
  intros Hwf Hst. destruct (find_index l k) as [i|] eqn:E.
  - destruct (find_index_Some l k i Hwf E) as [v' Hv'].
    apply list_elem_of_lookup in Hst as [j Hj].
    rewrite (wf_keys l Hwf i j k v' v Hv' Hj). eauto.
  - by apply (find_index_None l k v) in E.
Qed.

(** A token with another key keeps its side of [key_prefix k ++ w] when
    the payload [w] changes. *)
Lemma le_payload_r x k w0 w :
  startswith x (key_prefix k) = false → le x (key_prefix k ++ w0) → le x (key_prefix k ++ w).
Proof.
  intros Hx Hle. destruct (lt (key_prefix k) x) eqn:Hlt.
  - unfold le in Hle. by rewrite (lt_prefix_below _ _ w0 Hx Hlt) in Hle.
  - apply lt_le. by apply lt_prefix_above.
Qed.

Lemma le_payload_l x k w0 w :
  startswith x (key_prefix k) = false → le (key_prefix k ++ w0) x → le (key_prefix k ++ w) x.
Proof.
  intros Hx Hle. destruct (lt (key_prefix k) x) eqn:Hlt.
  - apply lt_le. by apply lt_prefix_below.
  - unfold le in Hle. by rewrite (lt_prefix_above _ _ w0 Hx Hlt) in Hle.
Qed.

Lemma other_key_prefix k k' v : k' ≠ k → startswith (token k' v) (key_prefix k) = false.
Proof.
  intros Hne. destruct (startswith _ _) eqn:E; [|done].
  by apply startswith_token_key in E.
Qed.

Lemma wf_replace l i k v0 v :
  wf l → l !! i = Some (token k v0) → wf (<[i := token k v]> l).
Proof.
  intros Hwf Hi.
  assert (∀ j x, j ≠ i → l !! j = Some x → startswith x (key_prefix k) = false) as Hother.
  { intros j x Hj Hx.
    destruct (wf_tokens l Hwf x) as (k' & v' & ->); [by eapply list_elem_of_lookup_2|].
    apply other_key_prefix. intros ->. apply Hj. by eapply (wf_keys l Hwf j i). }
  split.
  - pose proof (wf_sorted l Hwf) as Hs.
    rewrite insert_take_drop by by eapply lookup_lt_Some.
    rewrite <-(take_drop_middle l i _ Hi) in Hs.
    apply StronglySorted_app in Hs as (Hlr & Hsl & Hsr).
    apply StronglySorted_cons in Hsr as [Hr Hsr].
    apply StronglySorted_app. split_and!; [|done|].
    + intros x1 x2 H1 [->|H2]%elem_of_cons; [|apply Hlr; set_solver].
      rewrite token_key_prefix. apply (le_payload_r x1 k v0).
      * apply list_elem_of_lookup in H1 as [j [Hj ?]%lookup_take_Some].
        apply (Hother j); [lia|done].
      * rewrite <-token_key_prefix. apply Hlr; set_solver.
    + apply StronglySorted_cons. split; [|done].
      apply Forall_forall. intros x2 H2.
      rewrite token_key_prefix. apply (le_payload_l x2 k v0).
      * apply list_elem_of_lookup in H2 as [j Hj]. rewrite lookup_drop in Hj.
        apply (Hother (S i + j)%nat); [lia|done].
      * rewrite <-token_key_prefix. by eapply Forall_forall in Hr.
  - intros x [j Hj]%list_elem_of_lookup.
    destruct (decide (j = i)) as [->|Hne].
    + rewrite list_lookup_insert_eq in Hj by by eapply lookup_lt_Some.
      injection Hj as <-. eauto.
    + rewrite list_lookup_insert_ne in Hj by done.
      apply (wf_tokens l Hwf). by eapply list_elem_of_lookup_2.
  - intros j1 j2 k' v1 v2 H1 H2.
    assert (∀ j w, <[i:=token k v]> l !! j = Some (token k' w) →
                   ∃ w', l !! j = Some (token k' w')) as Hback.
    { intros j w Hj. destruct (decide (j = i)) as [->|Hne].
      - rewrite list_lookup_insert_eq in Hj by by eapply lookup_lt_Some.
        injection Hj as Hj. apply token_inj in Hj as [-> _]. eauto.
      - rewrite list_lookup_insert_ne in Hj by done. eauto. }
    destruct (Hback _ _ H1) as [w1 Hw1]. destruct (Hback _ _ H2) as [w2 Hw2].
    by eapply (wf_keys l Hwf).
Qed.

Lemma wf_insort l k v :
  wf l → (∀ v', ¬ stored l k v') → wf (Bisect.insort_right l (token k v)).
Proof.
  intros Hwf Hfresh. split.
  - apply insort_right_sorted, Hwf.
  - intros x [->|Hx]%elem_of_insort_right; [eauto|]. by apply (wf_tokens l Hwf).
  - assert (NoDup l) as Hnd.
    { apply NoDup_alt. intros i j x Hi Hj.
      destruct (wf_tokens l Hwf x) as (k' & v' & ->); [by eapply list_elem_of_lookup_2|].
      by eapply (wf_keys l Hwf). }
    assert (NoDup (Bisect.insort_right l (token k v))) as Hnd'.
    { rewrite insort_right_perm. apply NoDup_cons. split; [apply Hfresh | done]. }
    intros i j k' v1 v2 Hi Hj.
    assert (v1 = v2) as ->; [|by eapply NoDup_lookup].
    apply list_elem_of_lookup_2, elem_of_insort_right in Hi.
    apply list_elem_of_lookup_2, elem_of_insort_right in Hj.
    destruct Hi as [[-> ->]%token_inj|[i' Hi]%list_elem_of_lookup],
             Hj as [[? ?]%token_inj|[j' Hj]%list_elem_of_lookup]; subst; try done.
    + exfalso. eapply Hfresh. by eapply list_elem_of_lookup_2.
    + exfalso. eapply Hfresh. by eapply list_elem_of_lookup_2.
    + pose proof (wf_keys l Hwf _ _ _ _ _ Hi Hj) as ->. rewrite Hi in Hj.
      injection Hj as Hj. by apply token_inj in Hj as [_ ?].
Qed.

Lemma setitem_wf l k v : wf l → wf (setitem l k v).
Proof.
  intros Hwf. unfold setitem. destruct (find_index l k) as [i|] eqn:E.
  - destruct (find_index_Some l k i Hwf E) as [v0 Hv0]. by eapply wf_replace.
  - apply wf_insort; [done|]. intros v'. by apply find_index_None.
Qed.

Lemma setitem_stored l k v k' v' :
  wf l → stored (setitem l k v) k' v' ↔ (k' = k ∧ v' = v) ∨ (k' ≠ k ∧ stored l k' v').
Proof.
  intros Hwf. unfold setitem, stored. destruct (find_index l k) as [i|] eqn:E.
  - destruct (find_index_Some l k i Hwf E) as [v0 Hv0].
    rewrite !list_elem_of_lookup. split.
    + intros [j Hj]. destruct (decide (j = i)) as [->|Hne].
      * rewrite list_lookup_insert_eq in Hj by by eapply lookup_lt_Some.
        injection Hj as Hj. apply token_inj in Hj as [-> ->]. by left.
      * rewrite list_lookup_insert_ne in Hj by done. right. split; [|eauto].
        intros ->. apply Hne. by eapply (wf_keys l Hwf).
    + intros [[-> ->]|[Hne [j Hj]]].
      * exists i. rewrite list_lookup_insert_eq; [done|by eapply lookup_lt_Some].
      * exists j. rewrite list_lookup_insert_ne; [done|]. intros ->.
        rewrite Hv0 in Hj. injection Hj as Hj. by apply token_inj in Hj as [? _].
  - rewrite elem_of_insort_right. split.
    + intros [[-> ->]%token_inj|H]; [by left|]. right. split; [|done].
      intros ->. by eapply (find_index_None l k v').
    + intros [[-> ->]|[_ ?]]; auto.
Qed.

(** *** [find_children] *)

Lemma rmap_ok {A B} (f : A → result B) (g : A → B) (l : list A) :
  (∀ a, a ∈ l → f a = Ok (g a)) → rmap f l = Ok (g <$> l).
Proof.
  induction l as [|a l IH]; intros H; simpl; [done|].
  rewrite H by set_solver. simpl. rewrite IH by set_solver. done.
Qed.

Lemma get_values_token (l : t) i k v :
  l !! i = Some (token k v) → get_values l (Z.of_nat i) = Ok (k.1, k.2, v).
Proof.
  intros Hi. pose proof (lookup_lt_Some _ _ _ Hi). unfold get_values.
  destruct (Z.ltb_spec (Z.of_nat i) 0); [lia|].
  destruct (Z.geb_spec (Z.of_nat i) (Z.of_nat (length l))); [lia|]. simpl.
  rewrite Nat2Z.id, Hi, split2_token, !int_str. done.
Qed.

Lemma scan_down_elem (l : t) p n j :
  j ∈ scan_down l p n → (j < n)%nat ∧ ∃ x, l !! j = Some x ∧ startswith x p = true.
Proof.
  induction n as [|n IH]; simpl; [by intros ?%elem_of_nil|].
  destruct (l !! n) as [x|] eqn:Hx; [|by intros ?%elem_of_nil].
  destruct (startswith x p) eqn:Hp; [|by intros ?%elem_of_nil].
  intros [->|Hj]%elem_of_cons; [split; [lia|eauto]|].
  destruct (IH Hj). split; [lia|done].
Qed.

Lemma scan_down_complete (l : t) p n j :
  (j < n)%nat →
  (∀ i, (j ≤ i < n)%nat → ∃ x, l !! i = Some x ∧ startswith x p = true) →
  j ∈ scan_down l p n.
Proof.
  induction n as [|n IH]; intros Hj Hall; [lia|]. simpl.
  destruct (Hall n) as (x & -> & ->); [lia|].
  destruct (decide (j = n)) as [->|]; [left|right].
  apply IH; [lia|]. intros i ?. apply Hall. lia.
Qed.

Lemma scan_down_NoDup (l : t) p n : NoDup (scan_down l p n).
Proof.
  induction n as [|n IH]; simpl; [constructor|].
  destruct (l !! n); [|constructor]. destruct (startswith _ _); [|constructor].
  constructor; [|done]. intros [? _]%scan_down_elem. lia.
Qed.

Lemma scan_up_elem fuel (l : t) p n j :
  j ∈ scan_up fuel l p n → (n ≤ j)%nat ∧ ∃ x, l !! j = Some x ∧ startswith x p = true.
Proof.
  revert n. induction fuel as [|fuel IH]; intros n; simpl; [by intros ?%elem_of_nil|].
  destruct (l !! n) as [x|] eqn:Hx; [|by intros ?%elem_of_nil].
  destruct (startswith x p) eqn:Hp; [|by intros ?%elem_of_nil].
  intros [->|Hj]%elem_of_cons; [split; [lia|eauto]|].
  destruct (IH _ Hj). split; [lia|done].
Qed.

Lemma scan_up_complete fuel (l : t) p n j :
  (n ≤ j)%nat → (j - n < fuel)%nat →
  (∀ i, (n ≤ i ≤ j)%nat → ∃ x, l !! i = Some x ∧ startswith x p = true) →
  j ∈ scan_up fuel l p n.
Proof.
  revert n. induction fuel as [|fuel IH]; intros n Hj Hfuel Hall; [lia|]. simpl.
  destruct (Hall n) as (x & -> & ->); [lia|].
  destruct (decide (j = n)) as [->|]; [left|right].
  apply IH; [lia..|]. intros i ?. apply Hall. lia.
Qed.

(** The upward scan stops at the end of the list at the latest. *)
Lemma scan_up_fuel fuel fuel' (l : t) p n :
  (length l - n ≤ fuel)%nat → (length l - n ≤ fuel')%nat →
  scan_up fuel l p n = scan_up fuel' l p n.
Proof.
  revert fuel' n. induction fuel as [|fuel IH]; intros [|fuel'] n Hf Hf'; simpl; try done.
  - destruct (l !! n) eqn:E; [|done]. apply lookup_lt_Some in E. lia.
  - destruct (l !! n) eqn:E; [|done]. apply lookup_lt_Some in E. lia.
  - destruct (l !! n) eqn:E; [|done]. destruct (startswith s p); [|done].
    f_equal. apply IH; lia.
Qed.

Lemma scan_up_NoDup fuel (l : t) p n : NoDup (scan_up fuel l p n).
Proof.
  revert n. induction fuel as [|fuel IH]; intros n; simpl; [constructor|].
  destruct (l !! n); [|constructor]. destruct (startswith _ _); [|constructor].
  constructor; [|done]. intros [? _]%scan_up_elem. lia.
Qed.

Lemma visited_NoDup l p index : NoDup (visited l p index).
Proof.
  unfold visited. apply NoDup_cons. split.
  - intros [[? _]%scan_down_elem|[? _]%scan_up_elem]%elem_of_app; lia.
  - apply NoDup_app. split_and!; [apply scan_down_NoDup| |apply scan_up_NoDup].
    intros j [? _]%scan_down_elem [? _]%scan_up_elem. lia.
Qed.

Lemma visited_elem l p index x j :
  StronglySorted le l → l !! index = Some x → startswith x p = true →
  j ∈ visited l p index ↔ ∃ y, l !! j = Some y ∧ startswith y p = true.
Proof.
  intros Hs Hx Hp. unfold visited. rewrite elem_of_cons, elem_of_app. split.
  - intros [->|[[_ ?]%scan_down_elem|[_ ?]%scan_up_elem]]; eauto.
  - intros (y & Hy & Hyp). pose proof (lookup_lt_Some _ _ _ Hy).
    destruct (Nat.lt_trichotomy j index) as [Hlt|[->|Hgt]]; [right; left|by left|right; right].
    + apply scan_down_complete; [done|]. intros i Hi.
      destruct (l !! i) as [z|] eqn:Hz; cycle 1.
      { apply lookup_ge_None in Hz. apply lookup_lt_Some in Hx. lia. }
      exists z. split; [done|].
      apply (prefix_contiguous l p j i index y z x); [done|lia|done..].
    + apply scan_up_complete; [lia..|]. intros i Hi.
      destruct (l !! i) as [z|] eqn:Hz; cycle 1.
      { apply lookup_ge_None in Hz. lia. }
      exists z. split; [done|].
      apply (prefix_contiguous l p index i j x z y); [done|lia|done..].
Qed.

Lemma find_children_visited l s :
  wf l →
  let index := bisearch l (str s ++ separator) in
  find_children l s =
    if decide (index ≠ length l)
    then Ok (Some (entry_at l <$> visited l (str s ++ separator) index))
    else Ok None.
Proof.
  intros Hwf index. unfold find_children, find_children'. fold index.
  case_decide as Hne; [|done].
  destruct (bisearch_sound _ _ Hne) as (x & Hx & Hp). fold index in Hx.
  pose proof (visited_elem l (str s ++ separator) index x) as Hvis.
  assert (∀ j, j ∈ visited l (str s ++ separator) index →
    (current ← get_values l (Z.of_nat j); Ok (current.1.2, current.2)) = Ok (entry_at l j))
    as Hchild.
  { intros j (y & Hy & _)%Hvis; [|apply Hwf|done..].
    destruct (wf_tokens l Hwf y) as (k & v & ->); [by eapply list_elem_of_lookup_2|].
    rewrite (get_values_token l j k v Hy). unfold entry_at. rewrite Hy. simpl.
    by rewrite parse_token. }
  clear Hvis. unfold visited in Hchild |- *.
  rewrite Hchild by set_solver. simpl.
  rewrite (rmap_ok _ (entry_at l)) by (intros; apply Hchild; set_solver). simpl.
  rewrite (rmap_ok _ (entry_at l)) by (intros; apply Hchild; set_solver). simpl.
  by rewrite fmap_app.
Qed.

(** [find_children] reports exactly the stored edges that leave [s], once
    each; [None] stands for no edge. *)
Lemma find_children_spec l s :
  wf l →
  match find_children l s with
  | Ok None => ∀ d v, ¬ stored l (s, d) v
  | Ok (Some r) =>
      r ≠ [] ∧ NoDup r.*1 ∧ ∀ d v, (d, v) ∈ r ↔ stored l (s, d) v
  | Raise _ => False
  end.
Proof.
  intros Hwf. rewrite find_children_visited by done.
  set (p := str s ++ separator). set (index := bisearch l p).
  case_decide as Hne.
  - destruct (bisearch_sound _ _ Hne) as (x & Hx & Hp). fold index in Hx.
    pose proof (visited_elem l p index x) as Hvis.
    assert (∀ j, j ∈ visited l p index ↔ ∃ d v, l !! j = Some (token (s, d) v)) as Hvis'.
    { intros j. rewrite Hvis; [|apply Hwf|done..]. split.
      - intros (y & Hy & Hyp).
        destruct (wf_tokens l Hwf y) as ([a b] & v & ->); [by eapply list_elem_of_lookup_2|].
        apply startswith_token_source in Hyp. simpl in Hyp. subst a. eauto.
      - intros (d & v & Hj). eexists. split; [done|]. by apply startswith_token_source. }
    assert (∀ j d v, l !! j = Some (token (s, d) v) → entry_at l j = (d, v)) as Hentry.
    { intros j d v Hj. unfold entry_at. rewrite Hj. simpl. by rewrite parse_token. }
    split_and!.
    + done.
    + rewrite <-list_fmap_compose. apply NoDup_fmap_2_strong; [|apply visited_NoDup].
      intros j1 j2 (d1 & v1 & H1)%Hvis' (d2 & v2 & H2)%Hvis'. simpl.
      rewrite (Hentry _ _ _ H1), (Hentry _ _ _ H2). simpl. intros ->.
      by eapply (wf_keys l Hwf).
    + intros d v. rewrite list_elem_of_fmap. unfold stored. split.
      * intros (j & Hj & (d' & v' & Hin)%Hvis').
        rewrite (Hentry _ _ _ Hin) in Hj. injection Hj as -> ->.
        by eapply list_elem_of_lookup_2.
      * intros [j Hj]%list_elem_of_lookup. exists j. split; [by rewrite (Hentry _ _ _ Hj)|].
        apply Hvis'. eauto.
  - intros d v [j Hj]%list_elem_of_lookup.
    apply (bisearch_complete l p j _ (wf_sorted l Hwf) Hj); [|done].
    by apply startswith_token_source.
Qed.

(** *** Rewriting the edges of a retired index *)


Lemma wf_alt l :
  wf l ↔
  StronglySorted le l ∧ (∀ x, x ∈ l → ∃ k v, x = token k v) ∧ NoDup l ∧
  (∀ k v v', stored l k v → stored l k v' → v = v').
Proof.
  split.
  - intros Hwf. split_and!; try apply Hwf.
    + apply NoDup_alt. intros i j x Hi Hj.
      destruct (wf_tokens l Hwf x) as (k' & v' & ->); [by eapply list_elem_of_lookup_2|].
      by eapply (wf_keys l Hwf).
    + intros k v v' [i Hi]%list_elem_of_lookup [j Hj]%list_elem_of_lookup.
      pose proof (wf_keys l Hwf _ _ _ _ _ Hi Hj) as ->. rewrite Hi in Hj.
      injection Hj as Hj. by apply token_inj in Hj as [_ ?].
  - intros (Hs & Ht & Hnd & Hf). split; [done..|].
    intros i j k v v' Hi Hj.
    assert (v = v') as -> by (eapply Hf; by eapply list_elem_of_lookup_2).
    by eapply NoDup_lookup.
Qed.

Lemma StronglySorted_filter (P : string → Prop) `{∀ x, Decision (P x)} (l : list string) :
  StronglySorted le l → StronglySorted le (filter P l).
Proof.
  induction 1 as [|x l Hs IH Hx]; [constructor|].
  rewrite filter_cons. case_decide; [|done].
  constructor; [done|]. apply Forall_forall. intros y [_ Hy]%list_elem_of_filter.
  by eapply Forall_forall in Hx.
Qed.

Lemma filter_wf (P : string → Prop) `{∀ x, Decision (P x)} l : wf l → wf (filter P l).
Proof.
  rewrite !wf_alt. intros (Hs & Ht & Hnd & Hf). split_and!.
  - by apply StronglySorted_filter.
  - intros x [_ ?]%list_elem_of_filter. auto.
  - by apply NoDup_filter.
  - intros k v v' [_ ?]%list_elem_of_filter [_ ?]%list_elem_of_filter. by eapply Hf.
Qed.

Lemma write_back_wf l moved : wf l → wf (write_back l moved).
Proof.
  unfold write_back. revert l. induction moved as [|e moved IH]; intros l Hwf; simpl; [done|].
  by apply IH, setitem_wf.
Qed.

Lemma setitem_has_edge l k v k' :
  wf l → has_edge (setitem l k v) k' ↔ k' = k ∨ has_edge l k'.
Proof.
  intros Hwf. unfold has_edge. split.
  - intros [v' [[-> _]|[_ ?]]%setitem_stored]; eauto.
  - destruct (decide (k' = k)) as [->|Hne].
    + intros _. exists v. apply setitem_stored; auto.
    + intros [?|[v' Hv']]; [done|]. exists v'. apply setitem_stored; auto.
Qed.




Lemma change_parent_of_children_wf l new_parent old_parent :
  wf l → wf (change_parent_of_children l new_parent old_parent).
Proof. intros Hwf. by apply write_back_wf, filter_wf. Qed.

Lemma change_children_of_parents_wf l old_child new_child :
  wf l → wf (change_children_of_parents l old_child new_child).
Proof. intros Hwf. by apply write_back_wf, filter_wf. Qed.



End SparseMatrixFacts.

Module SparseMatrixClaims.
Import SparseMatrix SparseMatrixFacts.

Lemma write_back_stored (l : t) (m : gmap (Z * Z) string) ops k v :
  wf l → (∀ k v, stored l k v ↔ m !! k = Some v) →
  stored (write_back l ops) k v ↔
  foldl (λ m op, <[(op.1.1, op.1.2) := op.2]> m) m ops !! k = Some v.
Proof.
  unfold write_back. revert l m. induction ops as [|op ops IH]; intros l m Hwf Hm; simpl.
  - apply Hm.
  - apply IH; [by apply setitem_wf|]. intros k' v'.
    rewrite setitem_stored by done. rewrite Hm.
    destruct (decide ((op.1.1, op.1.2) = k')) as [<-|Hne].
    + rewrite lookup_insert_eq. split; [intros [[_ ->]|[? _]]; done|].
      intros [= ->]. by left.
    + rewrite lookup_insert_ne by done. split; [intros [[-> _]|[_ ?]]; done|].
      intros ?. by right.
Qed.

(** The first half of C5, which holds: after any sequence of
    [__setitem__] calls, [find_children(source)] reports exactly the
    destinations written for that source, once each, with the payload
    written last; [None] stands for no destination.  A source is matched on
    its whole numeral: [written ops] is keyed by the integers. *)
Theorem find_children_round_trip ops source :
  match find_children (write_back init ops) source with
  | Ok None => ∀ d, written ops !! (source, d) = None
  | Ok (Some r) =>
      NoDup r.*1 ∧ ∀ d v, (d, v) ∈ r ↔ written ops !! (source, d) = Some v
  | Raise _ => False
  end.
Proof.
  assert (wf (write_back init ops)) as Hwf by apply write_back_wf, wf_init.
  assert (∀ k v, stored (write_back init ops) k v ↔ written ops !! k = Some v) as Hst.
  { intros k v. apply write_back_stored; [apply wf_init|].
    intros k' v'. unfold stored, init. rewrite elem_of_nil, lookup_empty. by split. }
  pose proof (find_children_spec _ source Hwf) as H.
  destruct (find_children _ _) as [[r|]|]; [| |done].
  - destruct H as (_ & Hnd & Hr). split; [done|]. intros d v. by rewrite Hr, Hst.
  - intros d. destruct (written ops !! (source, d)) as [v|] eqn:E; [|done].
    exfalso. by eapply H, Hst.
Qed.

(** C5: [__contains__] says the pair [(1, 2)] is present and
    [__getitem__] raises [TypeError] for it; and once [(1, 23)] is written,
    [__contains__] also answers [True] for [(1, 2)], which was never
    written. *)
Theorem contains_disagrees_with_get :
  setitem init (1, 2) "x" = ["1.2.x"] ∧
  contains (setitem init (1, 2) "x") (1, 2) = true ∧
  getitem (setitem init (1, 2) "x") (1, 2) = Raise TypeError ∧
  setitem init (1, 23) "x" = ["1.23.x"] ∧
  contains (setitem init (1, 23) "x") (1, 2) = true ∧
  find_index (setitem init (1, 23) "x") (1, 2) = None.
Proof. vm_compute. by repeat split. Qed.

(** [__getitem__] raises [TypeError] on every matrix and key. *)
Lemma getitem_raises (l : t) key : getitem l key = Raise TypeError.
Proof. reflexivity. Qed.

End SparseMatrixClaims.

Module GraphFacts.
Import SparseMatrix SparseMatrixFacts.

Ltac run := cbv [mbind M_bind mret M_ret self update deref assign subscript lift raise dict_get].

Lemma get_prop_hash_inj p q : get_prop_hash p = get_prop_hash q → p = q.
Proof.
  unfold get_prop_hash. intros [= H%(inj encode)]. destruct p, q; simpl in *. by subst.
Qed.

Lemma intern_spec w s :
  intern_ok (graph w) →
  ∃ w', Graph.intern s w = (Ok (), w') ∧
    edges (graph w') = edges (graph w) ∧
    states (graph w') = states (graph w) ∧
    state_indices_by_id (graph w') = state_indices_by_id (graph w) ∧
    start_node (graph w') = start_node (graph w) ∧
    intern_ok (graph w') ∧
    (∀ r, heap w' !!! r = heap w !!! r).
Proof.
  intros Hok. unfold Graph.intern. run.
  destruct (prop_by_hash (graph w) !! get_prop_hash (properties (heap w !!! s))) as [p|] eqn:E.
  - eexists. split; [done|]. simpl. split_and!; try done.
    apply Hok, get_prop_hash_inj in E as ->. intros r.
    destruct (decide (r = s)) as [->|].
    + rewrite lookup_total_insert_eq. by destruct (heap w !!! s).
    + by rewrite lookup_total_insert_ne.
  - eexists. split; [done|]. simpl. split_and!; try done.
    unfold intern_ok, map_Forall; simpl.
    intros h p. destruct (decide (h = get_prop_hash (properties (heap w !!! s)))) as [->|].
    + rewrite lookup_insert_eq. by intros [= <-].
    + rewrite lookup_insert_ne by done. apply Hok.
Qed.


Lemma absorb_spec w a b :
  intern_ok (graph w) →
  ∃ w', Graph.absorb a b w = (Ok (), w') ∧
    edges (graph w') = edges (graph w) ∧
    states (graph w') = states (graph w) ∧
    state_indices_by_id (graph w') = state_indices_by_id (graph w) ∧
    start_node (graph w') =
      (if bool_decide (Some b = start_node (graph w)) then Some a else start_node (graph w)) ∧
    intern_ok (graph w') ∧
    heap w' !!! a =
      mkState (mkStateProperties (merged_templates (heap w !!! a) (heap w !!! b)))
              (is_terminal (heap w !!! a) || is_terminal (heap w !!! b)) ∧
    (∀ r, r ≠ a → heap w' !!! r = heap w !!! r).
Proof.
  intros Hok. unfold Graph.absorb. run. cbn [heap graph].
  fold (merged_templates (heap w !!! a) (heap w !!! b)).
  set (s1 := heap w !!! a). set (s2 := heap w !!! b).
  set (h1 := <[a := mkState (mkStateProperties (merged_templates s1 s2)) (is_terminal s1)]>
               (heap w)).
  assert (is_terminal (h1 !!! b) = is_terminal s1 || is_terminal s2
          ∨ (is_terminal (h1 !!! b) = false ∧ is_terminal s2 = false)) as Hterm.
  { unfold h1. destruct (decide (a = b)) as [<-|Hab].
    - rewrite lookup_total_insert_eq. simpl. left. unfold s2. fold s1.
      by destruct (is_terminal s1).
    - rewrite lookup_total_insert_ne by done. fold s2.
      destruct (is_terminal s2); [left|right]; [by rewrite orb_true_r|done]. }
  destruct (is_terminal (h1 !!! b)) eqn:Ht;
    destruct (bool_decide (Some b = start_node (graph w))) eqn:Hsn; cbn [heap graph];
    rewrite ?Hsn;
    match goal with |- context [Graph.intern a ?W] =>
      destruct (intern_spec W a) as (w' & Hrun & He & Hs & Hi & Hst & Hok' & Hheap);
        [done|]
    end;
    (exists w'; split; [exact Hrun|]);
    simpl in *; rewrite ?Hsn in *;
    (split_and!; [done..| |]);
    try (intros r Hr; rewrite Hheap; unfold h1;
         by rewrite ?lookup_total_insert_ne by done);
    rewrite Hheap; unfold h1; rewrite ?lookup_total_insert_eq; simpl; f_equal;
    destruct Hterm as [Hterm|[? Hterm]]; try done;
    rewrite ?Hterm; rewrite ?orb_false_r; try done;
    symmetry in Hterm; apply orb_false_elim in Hterm as [-> ->]; done.
Qed.

Lemma rewire_spec w a b ia ib :
  state_indices_by_id (graph w) !! a = Some ia →
  state_indices_by_id (graph w) !! b = Some ib →
  Graph.rewire a b w =
    (Ok (), mkWorld (heap w)
              (set_edges (change_children_of_parents
                            (change_parent_of_children (edges (graph w)) ia ib) ib ia)
                         (graph w))).
Proof.
  intros Ha Hb. unfold Graph.rewire. run. cbn [heap graph].
  rewrite Ha, Hb. cbn [heap graph set_edges state_indices_by_id edges]. by rewrite Ha, Hb.
Qed.

Lemma rewire_unknown w a b :
  state_indices_by_id (graph w) !! a = None ∨ state_indices_by_id (graph w) !! b = None →
  Graph.rewire a b w = (Raise KeyError, w).
Proof.
  intros H. unfold Graph.rewire. run. cbn [heap graph].
  destruct (state_indices_by_id (graph w) !! a) eqn:Ha;
    destruct (state_indices_by_id (graph w) !! b) eqn:Hb; try done.
  by destruct H.
Qed.






(** *** The invariant of the graphs the methods build *)

Lemma init_ok start : graph_ok (Graph.init start).
Proof. split; [apply wf_init|]. unfold intern_ok. simpl. apply map_Forall_empty. Qed.

Lemma add_state_ok w s : graph_ok (graph w) → graph_ok (graph (Graph.add_state s w).2).
Proof.
  intros [Hwf Hok]. unfold Graph.add_state. run. cbn [heap graph].
  destruct (Graph.contains (graph w) s); [done|].
  match goal with |- context [Graph.intern s ?W] =>
    destruct (intern_spec W s) as (w' & -> & He & _ & _ & _ & Hok' & _); [done|]
  end.
  split; [|done]. simpl. by rewrite He.
Qed.

Lemma add_edge_ok w s t props :
  graph_ok (graph w) → graph_ok (graph (Graph.add_edge s t props w).2).
Proof.
  intros [Hwf Hok]. unfold Graph.add_edge. run. cbn [heap graph].
  repeat case_match; try done. split; [|done]. by apply setitem_wf.
Qed.

Lemma retire_frame w b :
  edges (graph (Graph.retire b w).2) = edges (graph w) ∧
  prop_by_hash (graph (Graph.retire b w).2) = prop_by_hash (graph w).
Proof.
  unfold Graph.retire. run. cbn [heap graph].
  destruct (state_indices_by_id (graph w) !! b) as [i|] eqn:Hb; [|done].
  destruct (bool_decide (is_Some (states (graph w) !! i))); [|done].
  cbn [heap graph set_states state_indices_by_id]. rewrite Hb.
  by rewrite bool_decide_eq_true_2 by done.
Qed.

Lemma merge_states_ok w a b :
  graph_ok (graph w) → graph_ok (graph (Graph.merge_states a b w).2).
Proof.
  intros [Hwf Hok].
  destruct (absorb_spec w a b Hok) as (w1 & Hrun & He & _ & Hi & _ & Hok1 & _).
  unfold Graph.merge_states. cbv [mbind M_bind]. rewrite Hrun.
  destruct (state_indices_by_id (graph w) !! a) as [ia|] eqn:Ha; cycle 1.
  { rewrite rewire_unknown by (left; congruence). simpl. split; [by rewrite He|done]. }
  destruct (state_indices_by_id (graph w) !! b) as [ib|] eqn:Hb; cycle 1.
  { rewrite rewire_unknown by (right; congruence). simpl. split; [by rewrite He|done]. }
  rewrite (rewire_spec w1 a b ia ib) by congruence.
  match goal with |- context [Graph.retire b ?W] =>
    destruct (retire_frame W b) as [He2 Hp2]; destruct (Graph.retire b W) as [[[]|e] w2]
  end; simpl in *; (split; [rewrite He2, He|unfold intern_ok; by rewrite Hp2]);
    by apply change_children_of_parents_wf, change_parent_of_children_wf.
Qed.

(** *** Failure and atomicity *)







(** *** Neighbour queries *)

Lemma mirror_spec (l acc : list string) :
  (∀ x, x ∈ l → ∃ k v, x = token k v) →
  ∃ rev, mirror l acc = Ok rev ∧
    ∀ y, y ∈ rev ↔ y ∈ acc ∨ ∃ k v, token k v ∈ l ∧ y = token (k.2, k.1) v.
Proof.
  revert acc. induction l as [|x l IH]; intros acc Hl; simpl.
  - exists acc. split; [done|]. intros y. split; [by left|].
    by intros [?|(k & v & ?%elem_of_nil & _)].
  - destruct (Hl x) as (k & v & ->); [by left|].
    unfold mirror_token. rewrite split2_token. simpl.
    destruct (IH (Bisect.insort_right acc (PyStr.str k.2 ++ "." ++ PyStr.str k.1 ++ "." ++ v)))
      as (rev & -> & Hrev).
    { intros y ?. apply Hl. by right. }
    exists rev. split; [done|]. intros y. rewrite Hrev, elem_of_insort_right. split.
    + intros [[->|?]|(k' & v' & ? & ->)]; [right|by left|right].
      * exists k, v. split; [by left|done].
      * exists k', v'. split; [by right|done].
    + intros [?|(k' & v' & [Heq|?]%elem_of_cons & ->)]; [by left; right| |].
      * apply token_inj in Heq as [-> ->]. by left; left.
      * right. eauto.
Qed.

Lemma get_parents_none (l : list string) i :
  (∀ x, x ∈ l → ∃ k v, x = token k v ∧ k.2 ≠ i) → get_parents l i = Ok [].
Proof.
  intros Hl. unfold get_parents.
  destruct (mirror_spec l []) as (rev & -> & Hrev).
  { intros x (k & v & -> & _)%Hl. eauto. }
  simpl. unfold find_children'. rewrite bisearch_none; [by rewrite decide_False by (by intros [])|].
  intros y [?%elem_of_nil|(k & v & Hin & ->)]%Hrev; [done|].
  destruct (Hl _ Hin) as (k' & v' & [-> ->]%token_inj & Hne).
  destruct (PyStr.startswith _ _) eqn:E; [|done].
  by apply startswith_token_source in E.
Qed.

Lemma find_children_none (l : list string) i :
  (∀ x, x ∈ l → PyStr.startswith x (PyStr.str i ++ separator) = false) →
  find_children l i = Ok None.
Proof.
  intros Hl. unfold find_children, find_children'.
  rewrite bisearch_none by done. by rewrite decide_False by (by intros []).
Qed.

(** C8, as amended: [get_outgoing_states] and [get_incoming_states] return
    [None] for a state that is not in the graph and the empty list for a
    state of the graph without such neighbours;
    [get_outgoing_states_not_self] returns the empty list in both cases. *)
Theorem neighbour_queries w s :
  (Graph.contains (graph w) s = false →
     Graph.get_outgoing_states s w = (Ok None, w) ∧
     Graph.get_incoming_states s w = (Ok None, w) ∧
     Graph.get_outgoing_states_not_self s w = (Ok [], w)) ∧
  (∀ i, state_indices_by_id (graph w) !! s = Some i →
     (∀ x, x ∈ edges (graph w) → ∃ k v, x = token k v ∧ k.1 ≠ i) →
     Graph.get_outgoing_states s w = (Ok (Some []), w) ∧
     Graph.get_outgoing_states_not_self s w = (Ok [], w)) ∧
  (∀ i, state_indices_by_id (graph w) !! s = Some i →
     (∀ x, x ∈ edges (graph w) → ∃ k v, x = token k v ∧ k.2 ≠ i) →
     Graph.get_incoming_states s w = (Ok (Some []), w)).
Proof.
  split_and!.
  - intros Hs. unfold Graph.get_outgoing_states_not_self, Graph.get_outgoing_states,
      Graph.get_incoming_states. run. cbn [heap graph]. by rewrite Hs.
  - intros i Hi Hl.
    assert (Graph.get_outgoing_states s w = (Ok (Some []), w)) as Hout.
    { unfold Graph.get_outgoing_states, Graph.contains. run. cbn [heap graph].
      rewrite Hi. rewrite bool_decide_eq_true_2 by done.
      rewrite find_children_none; [done|].
      intros x (k & v & -> & Hne)%Hl.
      destruct (PyStr.startswith _ _) eqn:E; [|done].
      by apply startswith_token_source in E. }
    split; [done|]. unfold Graph.get_outgoing_states_not_self. cbv [mbind M_bind].
    by rewrite Hout.
  - intros i Hi Hl. unfold Graph.get_incoming_states, Graph.contains. run. cbn [heap graph].
    rewrite Hi. rewrite bool_decide_eq_true_2 by done.
    by rewrite get_parents_none.
Qed.

(** *** Edges that exist and edges that [__contains__] reports *)

Lemma contains_stored (l : t) k v : wf l → stored l k v → contains l k = true.
Proof.
  intros Hwf [i Hi]%list_elem_of_lookup. unfold contains.
  apply bool_decide_eq_true_2.
  apply (bisearch_complete l _ i _ (wf_sorted l Hwf) Hi).
  apply PyStrFacts.startswith_spec. exists (separator ++ v).
  unfold token. by rewrite !PyStrFacts.app_assoc_str.
Qed.

(** [add_edge] reports failure exactly when an endpoint is unknown or
    [__contains__] answers [True] for the pair of indices. *)
Lemma add_edge_false_iff w s t props :
  (Graph.add_edge s t props w).1 = Ok false ↔
  state_indices_by_id (graph w) !! s = None ∨
  state_indices_by_id (graph w) !! t = None ∨
  ∃ i j, state_indices_by_id (graph w) !! s = Some i ∧
         state_indices_by_id (graph w) !! t = Some j ∧
         contains (edges (graph w)) (i, j) = true.
Proof.
  unfold Graph.add_edge. run. cbn [heap graph].
  destruct (state_indices_by_id (graph w) !! s) as [i|]; [|by split; [left|]].
  destruct (state_indices_by_id (graph w) !! t) as [j|]; [|by split; [right; left|]].
  destruct (contains (edges (graph w)) (i, j)) eqn:E; simpl.
  - split; [|done]. intros _. right; right. by exists i, j.
  - split; [done|]. intros [?|[?|(i' & j' & [= <-] & [= <-] & ?)]]; congruence.
Qed.

(** [update_edge] returns [False] when an endpoint is unknown or
    [__contains__] answers [False], and raises [TypeError] otherwise: it
    never increments a count. *)
Lemma update_edge_outcome w s t passes :
  Graph.update_edge s t passes w = (Ok false, w) ∨
  Graph.update_edge s t passes w = (Raise TypeError, w) ∧
  ∃ i j, state_indices_by_id (graph w) !! s = Some i ∧
         state_indices_by_id (graph w) !! t = Some j ∧
         contains (edges (graph w)) (i, j) = true.
Proof.
  unfold Graph.update_edge. run. cbn [heap graph].
  destruct (state_indices_by_id (graph w) !! s) as [i|]; [|by left].
  destruct (state_indices_by_id (graph w) !! t) as [j|]; [|by left].
  destruct (contains (edges (graph w)) (i, j)) eqn:E; [|by left].
  right. split; [done|]. by exists i, j.
Qed.

(** On every edge that exists [update_edge] raises [TypeError]. *)
Lemma update_edge_existing w s t passes i j :
  wf (edges (graph w)) →
  state_indices_by_id (graph w) !! s = Some i →
  state_indices_by_id (graph w) !! t = Some j →
  has_edge (edges (graph w)) (i, j) →
  Graph.update_edge s t passes w = (Raise TypeError, w).
Proof.
  intros Hwf Hs Ht [v Hv]. unfold Graph.update_edge. run. cbn [heap graph].
  rewrite Hs, Ht. by rewrite (contains_stored _ _ v Hwf Hv).
Qed.

(** *** Claims settled by evaluation *)

Import Examples.


(** C6: with the edge [0 -> 10] stored, [add_edge] refuses the pair
    [0 -> 1], which is not in the index: [__contains__] searches for the
    prefix ["0.1"], and ["0.10.1"] starts with it. *)
Theorem add_edge_refuses_absent_pair :
  edges (graph eleven) = ["0.10.1"] ∧
  state_indices_by_id (graph eleven) !! 1%positive = Some 0 ∧
  state_indices_by_id (graph eleven) !! 2%positive = Some 1 ∧
  find_index (edges (graph eleven)) (0, 1) = None ∧
  Graph.add_edge 1%positive 2%positive "1" eleven = (Ok false, eleven).
Proof. vm_compute. by repeat split. Qed.

(** C7: on the existing edge [0 -> 1], [update_edge] raises [TypeError]
    and leaves the count as it was. *)
Theorem update_edge_raises :
  edges (graph chain) = ["0.1.1"; "1.2.1"] ∧
  state_indices_by_id (graph chain) !! 1%positive = Some 0 ∧
  state_indices_by_id (graph chain) !! 2%positive = Some 1 ∧
  Graph.update_edge 1%positive 2%positive 1 chain = (Raise TypeError, chain).
Proof. vm_compute. by repeat split. Qed.



(** C8, as stated, fails for [get_outgoing_states_not_self]: state 4 is
    not in the graph, state 3 is and has no outgoing edge, and the answer is
    the empty list for both. *)
Lemma not_self_cannot_tell_apart :
  Graph.contains (graph chain) 4%positive = false ∧
  Graph.contains (graph chain) 3%positive = true ∧
  (Graph.get_outgoing_states_not_self 4%positive chain).1 = Ok [] ∧
  (Graph.get_outgoing_states_not_self 3%positive chain).1 = Ok [].
Proof. vm_compute. by repeat split. Qed.

(** *** The theorems at concrete inputs *)

Lemma chain_ok : graph_ok (graph chain).
Proof.
  unfold chain, exec. cbn [foldl]. unfold Examples.do_add_edge, Examples.do_add_state.
  repeat (apply add_edge_ok || apply add_state_ok). apply init_ok.
Qed.




Lemma neighbour_queries_witness :
  Graph.get_outgoing_states 4%positive chain = (Ok None, chain) ∧
  Graph.get_outgoing_states 3%positive chain = (Ok (Some []), chain) ∧
  Graph.get_incoming_states 1%positive chain = (Ok (Some []), chain).
Proof.
  destruct (neighbour_queries chain 4%positive) as (Habsent & _ & _).
  destruct (neighbour_queries chain 3%positive) as (_ & Hout & _).
  destruct (neighbour_queries chain 1%positive) as (_ & _ & Hin).
  assert (edges (graph chain) = [token (0, 1) "1"; token (1, 2) "1"]) as Hedges
    by (vm_compute; reflexivity).
  split; [|split].
  - apply Habsent. vm_compute. reflexivity.
  - apply (Hout 2); [vm_compute; reflexivity|].
    rewrite Hedges. intros x Hx. apply elem_of_cons in Hx as [->|Hx].
    + exists (0, 1), "1". split; [reflexivity|discriminate].
    + apply elem_of_cons in Hx as [->|Hx]; [|by apply elem_of_nil in Hx].
      exists (1, 2), "1". split; [reflexivity|discriminate].
  - apply (Hin 0); [vm_compute; reflexivity|].
    rewrite Hedges. intros x Hx. apply elem_of_cons in Hx as [->|Hx].
    + exists (0, 1), "1". split; [reflexivity|discriminate].
    + apply elem_of_cons in Hx as [->|Hx]; [|by apply elem_of_nil in Hx].
      exists (1, 2), "1". split; [reflexivity|discriminate].
Defined.

End GraphFacts.

Module MatchingFacts.
Section Facts.

Variable search : string → option string.
Variable w : world.


Lemma choice_elem {A} (a : A) l r : ∃ c r', random_choice (a :: l) r = (Ok c, r') ∧ c ∈ a :: l.
Proof.
  unfold random_choice. destruct r as [|n r].
  - eexists _, _. split; [done|]. by left.
  - eexists _, _. split; [done|]. apply list_elem_of_In, nth_In.
    apply Nat.mod_upper_bound. done.
Qed.

Lemma matching_elem name l c cs :
  matching w name l = Ok cs → c ∈ cs → template_matches_state name (heap w !!! c) = true.
Proof.
  unfold matching. destruct l as [l|]; [|done]. intros [= <-].
  by intros [? _]%list_elem_of_filter.
Qed.

Lemma candidates_elem state name c cs :
  candidates w state name = Ok cs → c ∈ cs →
  template_matches_state name (heap w !!! c) = true.
Proof.
  unfold candidates. destruct (outgoing w state) as [l|]; simpl; [|done].
  apply matching_elem.
Qed.




(** C10: [match_trace] rewrites the caller's list.  With at least two
    lines and a first line whose template matches a child of the start
    node, the list has lost its first element when the call ends, whatever
    the result; with fewer than two lines, or when the first line fails, the
    list is as it was. *)
Theorem match_trace_mutates_trace :
  (∀ line0 line1 rest r name c cs,
     search line0 = Some name →
     candidates w (start_node (graph w)) name = Ok (c :: cs) →
     trace_after (match_trace search w (line0 :: line1 :: rest) r) = line1 :: rest) ∧
  (∀ trace r, (length trace ≤ 1)%nat →
     trace_after (match_trace search w trace r) = trace) ∧
  (∀ line0 rest r,
     (search line0 = None ∨
      ∃ name, search line0 = Some name ∧
              (candidates w (start_node (graph w)) name = Ok [] ∨
               ∃ e, candidates w (start_node (graph w)) name = Raise e)) →
     trace_after (match_trace search w (line0 :: rest) r) = line0 :: rest).
Proof.
  split_and!.
  - intros line0 line1 rest r name c cs Hname Hc.
    cbn [match_trace]. rewrite Hname. pose proof Hc as Hc'. unfold candidates in Hc.
    rewrite Hc. clear Hc. destruct (choice_elem c cs r) as (c0 & r1 & -> & Hin).
    rewrite (candidates_elem _ _ c0 _ Hc' Hin).
    by repeat case_match.
  - intros [|line0 [|??]] r Hlen; simpl in Hlen; [done| |lia].
    cbn [match_trace]. by repeat case_match.
  - intros line0 rest r [Hname|(name & Hname & [Hc|[e Hc]])];
      cbn [match_trace]; rewrite Hname; [done|..];
      unfold candidates in Hc; by rewrite Hc.
Qed.

End Facts.

Import Examples.


Lemma match_trace_mutates_trace_witness :
  trace_after (match_trace resolve rooted ["C"; "B"] []) = ["B"] ∧
  trace_after (match_trace resolve rooted ["C"] []) = ["C"].
Proof.
  destruct (match_trace_mutates_trace resolve rooted) as (Htwo & Hone & _).
  split.
  - apply (Htwo "C" "B" [] [] "C" 3%positive []); [reflexivity|].
    vm_compute. reflexivity.
  - apply Hone. simpl. lia.
Defined.

End MatchingFacts.

(** * Further properties of the code *)

Module SparseMatrixExtras.
Import PyStr PyStrFacts SparseMatrix SparseMatrixFacts.

(** Two well-formed lists that store the same edges are the same list. *)
Lemma wf_ext (l1 l2 : t) :
  wf l1 → wf l2 → (∀ k v, stored l1 k v ↔ stored l2 k v) → l1 = l2.
Proof.
  intros H1 H2 Hst.
  pose proof (proj1 (wf_alt l1) H1) as (Hs1 & Ht1 & Hn1 & _).
  pose proof (proj1 (wf_alt l2) H2) as (Hs2 & Ht2 & Hn2 & _).
  assert (AntiSymm (=) le) as Hanti.
  { intros s t Hst' Hts. by apply lt_total. }
  apply (StronglySorted_unique le); [done..|].
  apply NoDup_Permutation; [done..|]. intros x. split.
  - intros Hx. destruct (Ht1 x Hx) as (k & v & ->). by apply Hst.
  - intros Hx. destruct (Ht2 x Hx) as (k & v & ->). by apply Hst.
Qed.

(** X1: whatever the list, sorted or not, [bisearch] returns either
    [len(arr)] or the index of an entry that starts with the target; and it
    returns [len(arr)] when no entry starts with the target. *)
Theorem bisearch_never_misreports arr target :
  (bisearch arr target = length arr ∨
   ∃ a, arr !! bisearch arr target = Some a ∧ startswith a target = true) ∧
  ((∀ a, a ∈ arr → startswith a target = false) → bisearch arr target = length arr).
Proof.
  split.
  - destruct (decide (bisearch arr target = length arr)) as [|Hne]; [by left|].
    right. by apply bisearch_sound.
  - apply bisearch_none.
Qed.

Lemma bisearch_never_misreports_witness :
  bisearch ["3.4.z"; "1.2.x"] "5." = length ["3.4.z"; "1.2.x"].
Proof.
  apply (bisearch_never_misreports ["3.4.z"; "1.2.x"] "5.").
  intros a Ha. apply elem_of_cons in Ha as [->|Ha]; [reflexivity|].
  apply elem_of_cons in Ha as [->|Ha]; [reflexivity|]. by apply elem_of_nil in Ha.
Defined.

(** X2: on a sorted list [bisearch] finds an entry that starts with the
    target exactly when there is one. *)
Theorem bisearch_finds_prefix arr target :
  StronglySorted le arr →
  bisearch arr target ≠ length arr ↔ ∃ a, a ∈ arr ∧ startswith a target = true.
Proof.
  intros Hs. split.
  - intros (a & Ha & Hp)%bisearch_sound. exists a. split; [|done].
    by eapply list_elem_of_lookup_2.
  - intros (a & [i Hi]%list_elem_of_lookup & Hp). by eapply bisearch_complete.
Qed.

Lemma bisearch_finds_prefix_witness :
  bisearch ["1.2.x"; "12.3.y"; "3.4.z"] "12." ≠ length ["1.2.x"; "12.3.y"; "3.4.z"].
Proof.
  apply bisearch_finds_prefix.
  - repeat (constructor; [|repeat constructor; reflexivity]). constructor.
  - exists "12.3.y". split; [|reflexivity]. right. left.
Defined.

(** X3: [get_values] decodes what [__setitem__] encodes and guards its
    bounds: in a well-formed matrix, at an index within the list it returns
    the two coordinates and the payload of the token stored there; at a
    negative index and at an index at or beyond the length it raises
    [IndexError]. *)
Theorem get_values_decodes (l : t) index :
  wf l →
  (0 ≤ index < Z.of_nat (length l) →
   ∃ k v, l !! Z.to_nat index = Some (token k v) ∧ get_values l index = Ok (k.1, k.2, v)) ∧
  (index < 0 ∨ Z.of_nat (length l) ≤ index → get_values l index = Raise IndexError).
Proof.
  intros Hwf. split.
  - intros Hi. destruct (lookup_lt_is_Some_2 l (Z.to_nat index)) as [x Hx]; [lia|].
    destruct (wf_tokens l Hwf x) as (k & v & ->); [by eapply list_elem_of_lookup_2|].
    exists k, v. split; [done|].
    rewrite <-(Z2Nat.id index) at 1 by lia. by apply get_values_token.
  - intros H. unfold get_values.
    destruct (Z.ltb_spec index 0); [done|].
    destruct (Z.geb_spec index (Z.of_nat (length l))); [done|lia].
Qed.

Lemma get_values_decodes_witness :
  get_values (setitem init (1, 2) "x") 1 = Raise IndexError ∧
  get_values (setitem init (1, 2) "x") (-1) = Raise IndexError.
Proof.
  destruct (get_values_decodes (setitem init (1, 2) "x") 1) as [_ H1];
    [apply setitem_wf, wf_init|].
  destruct (get_values_decodes (setitem init (1, 2) "x") (-1)) as [_ H2];
    [apply setitem_wf, wf_init|].
  split; [apply H1|apply H2]; simpl; lia.
Defined.

(** X4: what [__setitem__] writes is found again: in a well-formed
    matrix, after [self[key] = value], [find_index(key)] gives an index and
    [get_values] at that index gives back the two coordinates and the
    payload, whatever the payload holds (separators included). *)
Theorem setitem_find_get (l : t) key value :
  wf l →
  ∃ i, find_index (setitem l key value) key = Some i ∧
       get_values (setitem l key value) (Z.of_nat i) = Ok (key.1, key.2, value).
Proof.
  intros Hwf. pose proof (setitem_wf l key value Hwf) as Hwf'.
  destruct (find_index_stored (setitem l key value) key value Hwf') as (i & Hi & Hl).
  { apply setitem_stored; auto. }
  exists i. split; [done|]. by apply get_values_token.
Qed.

Lemma setitem_find_get_witness :
  ∃ i, find_index (setitem init (3, 4) "a.b") (3, 4) = Some i ∧
       get_values (setitem init (3, 4) "a.b") (Z.of_nat i) = Ok (3, 4, "a.b").
Proof. apply (setitem_find_get init (3, 4) "a.b"). apply wf_init. Defined.

(** X5: [__setitem__] keeps the matrix well formed: the list stays sorted,
    holds only tokens, and holds one token per pair. *)
Theorem setitem_keeps_invariant (l : t) key value : wf l → wf (setitem l key value).
Proof. apply setitem_wf. Qed.

Lemma setitem_keeps_invariant_witness : wf (setitem (setitem init (1, 2) "x") (1, 10) "y").
Proof. apply setitem_keeps_invariant, setitem_keeps_invariant, wf_init. Defined.

(** X6: [__setitem__] touches one pair only: in a well-formed matrix every
    other pair keeps its entry, so [find_index] answers for it as before. *)
Theorem setitem_other_keys (l : t) key value key' :
  wf l → key' ≠ key →
  (∀ v, stored (setitem l key value) key' v ↔ stored l key' v) ∧
  (find_index (setitem l key value) key' = None ↔ find_index l key' = None).
Proof.
  intros Hwf Hne.
  assert (∀ v, stored (setitem l key value) key' v ↔ stored l key' v) as Hst.
  { intros v. rewrite setitem_stored by done. naive_solver. }
  split; [done|].
  pose proof (setitem_wf l key value Hwf) as Hwf'. split; intros Hnone.
  - destruct (find_index l key') as [i|] eqn:E; [|done].
    destruct (find_index_Some l key' i Hwf E) as [v Hv].
    exfalso. eapply (find_index_None _ key' v Hwf' Hnone), Hst.
    by eapply list_elem_of_lookup_2.
  - destruct (find_index (setitem l key value) key') as [i|] eqn:E; [|done].
    destruct (find_index_Some _ key' i Hwf' E) as [v Hv].
    exfalso. eapply (find_index_None _ key' v Hwf Hnone), Hst.
    by eapply list_elem_of_lookup_2.
Qed.

Lemma setitem_other_keys_witness :
  find_index (setitem (setitem init (1, 2) "x") (1, 23) "y") (1, 2) = None ↔
  find_index (setitem init (1, 2) "x") (1, 2) = None.
Proof.
  apply (setitem_other_keys (setitem init (1, 2) "x") (1, 23) "y" (1, 2)).
  - apply setitem_wf, wf_init.
  - discriminate.
Defined.

(** X8: the list is a canonical form.  Two sequences of [__setitem__]
    calls that leave the same pairs with the same payloads build the same
    list, whatever the order of the calls and the values overwritten on the
    way. *)
Theorem matrix_canonical ops1 ops2 :
  written ops1 = written ops2 → write_back init ops1 = write_back init ops2.
Proof.
  intros Heq. apply wf_ext; [apply write_back_wf, wf_init..|].
  intros k v.
  rewrite !(SparseMatrixClaims.write_back_stored init ∅); [by unfold written in Heq; rewrite Heq|..];
    try apply wf_init;
    intros k' v'; unfold stored, init; rewrite elem_of_nil, lookup_empty; by split.
Qed.

Lemma matrix_canonical_witness :
  write_back init [(1, 2, "a"); (3, 4, "b"); (1, 2, "c")] =
  write_back init [(3, 4, "b"); (1, 2, "c")].
Proof. apply matrix_canonical. vm_compute. reflexivity. Defined.

(** X7: the last write wins, and writes to different pairs commute:
    writing a pair twice leaves the list the second write alone would give,
    and two writes to different pairs give the same list in either order. *)
Theorem setitem_last_write_wins (l : t) k1 v1 k2 v2 :
  wf l →
  setitem (setitem l k1 v1) k1 v2 = setitem l k1 v2 ∧
  (k1 ≠ k2 → setitem (setitem l k1 v1) k2 v2 = setitem (setitem l k2 v2) k1 v1).
Proof.
  intros Hwf. split; [|intros Hne]; (apply wf_ext; [by repeat apply setitem_wf..|]);
    intros k v; rewrite !setitem_stored by (by repeat apply setitem_wf); naive_solver.
Qed.

Lemma setitem_last_write_wins_witness :
  setitem (setitem init (1, 2) "a") (1, 2) "b" = setitem init (1, 2) "b" ∧
  setitem (setitem init (1, 2) "a") (12, 3) "b" = setitem (setitem init (12, 3) "b") (1, 2) "a".
Proof.
  destruct (setitem_last_write_wins init (1, 2) "a" (12, 3) "b" wf_init) as [H1 H2].
  split; [exact H1|]. apply H2. discriminate.
Defined.


(** X9: [__len__] counts the pairs: after any sequence of [__setitem__]
    calls the length is the number of distinct pairs written, overwrites not
    counted. *)
Theorem len_counts_pairs ops : len (write_back init ops) = Z.of_nat (size (written ops)).
Proof.
  unfold len. f_equal.
  assert (∀ (l : t) (m : gmap (Z * Z) string),
    wf l → (∀ k v, stored l k v ↔ m !! k = Some v) → length l = size m →
    length (write_back l ops) =
    size (foldl (λ m op, <[(op.1.1, op.1.2) := op.2]> m) m ops)) as H.
  { unfold write_back. induction ops as [|op ops IH]; intros l m Hwf Hm Hlen; simpl; [done|].
    apply IH.
    - by apply setitem_wf.
    - intros k v. rewrite setitem_stored by done. rewrite Hm.
      destruct (decide ((op.1.1, op.1.2) = k)) as [<-|Hne].
      + rewrite lookup_insert_eq. naive_solver.
      + rewrite lookup_insert_ne by done. naive_solver.
    - rewrite map_size_insert. unfold setitem.
      destruct (find_index l (op.1.1, op.1.2)) as [i|] eqn:E.
      + destruct (find_index_Some l _ i Hwf E) as [v Hv].
        apply list_elem_of_lookup_2, Hm in Hv. rewrite Hv. by rewrite length_insert.
      + destruct (m !! (op.1.1, op.1.2)) as [v|] eqn:Hv.
        * apply Hm in Hv. by apply (find_index_None l _ v Hwf) in E.
        * rewrite (Permutation_length (insort_right_perm l _)). simpl. by rewrite Hlen. }
  apply H; [apply wf_init| |done].
  intros k v. unfold stored, init. rewrite elem_of_nil, lookup_empty. by split.
Qed.

(** X10: in a well-formed matrix [find_index] is exact: it returns the
    index of the token of the pair when the pair is stored, and [None] when
    it is not. *)
Theorem find_index_exact (l : t) key :
  wf l →
  match find_index l key with
  | Some i => ∃ v, l !! i = Some (token key v)
  | None => ∀ v, ¬ stored l key v
  end.
Proof.
  intros Hwf. destruct (find_index l key) as [i|] eqn:E.
  - by apply find_index_Some.
  - intros v. by apply find_index_None.
Qed.

Lemma find_index_exact_witness :
  match find_index (setitem init (1, 23) "x") (1, 2) with
  | Some i => ∃ v, setitem init (1, 23) "x" !! i = Some (token (1, 2) v)
  | None => ∀ v, ¬ stored (setitem init (1, 23) "x") (1, 2) v
  end.
Proof. apply find_index_exact, setitem_wf, wf_init. Defined.

(** X11: [__contains__] has no false negatives: in a well-formed matrix it
    answers [True] for every stored pair; so a [False] answer means that
    [find_index] finds nothing either. *)
Theorem contains_no_false_negative (l : t) key :
  wf l →
  (has_edge l key → contains l key = true) ∧
  (contains l key = false → find_index l key = None).
Proof.
  intros Hwf.
  assert (has_edge l key → contains l key = true) as H.
  { intros [v Hv]. by apply (GraphFacts.contains_stored l key v). }
  split; [done|]. intros Hc.
  destruct (find_index l key) as [i|] eqn:E; [|done].
  destruct (find_index_Some l key i Hwf E) as [v Hv].
  rewrite H in Hc; [done|]. exists v. by eapply list_elem_of_lookup_2.
Qed.

Lemma contains_no_false_negative_witness :
  contains (setitem init (1, 2) "x") (1, 2) = true.
Proof.
  apply (contains_no_false_negative (setitem init (1, 2) "x") (1, 2)).
  - apply setitem_wf, wf_init.
  - exists "x". left.
Defined.


(** X12: in a well-formed matrix [find_children(i)] is exact: it returns
    [None] when no edge leaves [i], and otherwise the destinations of the
    edges that leave [i], once each, each with its payload; a source is
    matched on its whole numeral, and the call never raises. *)
Theorem find_children_exact (l : t) i :
  wf l →
  match find_children l i with
  | Ok None => ∀ d v, ¬ stored l (i, d) v
  | Ok (Some r) => r ≠ [] ∧ NoDup r.*1 ∧ ∀ d v, (d, v) ∈ r ↔ stored l (i, d) v
  | Raise _ => False
  end.
Proof. apply find_children_spec. Qed.

Lemma find_children_exact_witness :
  match find_children (setitem (setitem init (1, 2) "x") (12, 3) "y") 1 with
  | Ok None => ∀ d v, ¬ stored (setitem (setitem init (1, 2) "x") (12, 3) "y") (1, d) v
  | Ok (Some r) =>
      r ≠ [] ∧ NoDup r.*1 ∧
      ∀ d v, (d, v) ∈ r ↔ stored (setitem (setitem init (1, 2) "x") (12, 3) "y") (1, d) v
  | Raise _ => False
  end.
Proof. apply find_children_exact, setitem_wf, setitem_wf, wf_init. Defined.

(** The token [get_parents] files for a token of the matrix. *)
Lemma mirror_token_token k v : mirror_token (token k v) = Ok (token (k.2, k.1) v).
Proof. unfold mirror_token. by rewrite split2_token. Qed.

Lemma mirror_perm (l acc : list string) :
  (∀ x, x ∈ l → ∃ k v, x = token k v) →
  StronglySorted le acc →
  ∃ rev, mirror l acc = Ok rev ∧ StronglySorted le rev ∧
    rev ≡ₚ (acc ++ ((λ x, match parse x with
                         | Some (a, b, v) => token (b, a) v
                         | None => x
                         end) <$> l))%list.
Proof.
  revert acc. induction l as [|x l IH]; intros acc Hl Hs; simpl.
  - exists acc. by rewrite app_nil_r.
  - destruct (Hl x) as (k & v & ->); [by left|].
    rewrite mirror_token_token. simpl.
    destruct (IH (Bisect.insort_right acc (token (k.2, k.1) v))) as (rev & -> & Hs' & Hp).
    { intros y ?. apply Hl. by right. }
    { by apply insort_right_sorted. }
    exists rev. split; [done|]. split; [done|].
    rewrite Hp, insort_right_perm, parse_token. simpl.
    by rewrite <-Permutation_middle.
Qed.

Lemma mirror_wf (l : t) :
  wf l →
  ∃ rev, mirror l [] = Ok rev ∧ wf rev ∧
    ∀ k v, stored rev k v ↔ stored l (k.2, k.1) v.
Proof.
  intros Hwf. pose proof (proj1 (wf_alt l) Hwf) as (Hs & Ht & Hnd & Hf).
  destruct (mirror_perm l [] Ht) as (rev & Hrun & Hs' & Hp); [constructor|].
  simpl in Hp. set (flip := λ x, match parse x with
                                 | Some (a, b, v) => token (b, a) v
                                 | None => x
                                 end) in Hp.
  assert (∀ k v, flip (token k v) = token (k.2, k.1) v) as Hflip.
  { intros k v. unfold flip. by rewrite parse_token. }
  assert (∀ k v, stored rev k v ↔ stored l (k.2, k.1) v) as Hst.
  { intros k v. unfold stored. rewrite Hp, list_elem_of_fmap. split.
    - intros (x & Hx & Hin). destruct (Ht x Hin) as (k' & v' & ->).
      rewrite Hflip in Hx. apply token_inj in Hx as [-> ->]. by destruct k'.
    - intros Hin. exists (token (k.2, k.1) v). split; [|done].
      rewrite Hflip. by destruct k. }
  exists rev. split; [done|]. split; [|done]. apply wf_alt. split_and!.
  - done.
  - intros x. rewrite Hp. intros (y & -> & Hy)%list_elem_of_fmap.
    destruct (Ht y Hy) as (k & v & ->). rewrite Hflip. eauto.
  - rewrite Hp. apply NoDup_fmap_2_strong; [|done].
    intros x y Hx Hy. destruct (Ht x Hx) as (k & v & ->), (Ht y Hy) as (k' & v' & ->).
    rewrite !Hflip. intros [Hk ->]%token_inj. f_equal.
    destruct k, k'; simpl in *. congruence.
  - intros k v v' H1%Hst H2%Hst. by eapply Hf.
Qed.

Lemma get_parents_spec (l : t) i :
  wf l →
  ∃ ps, get_parents l i = Ok ps ∧ NoDup ps ∧ ∀ p, p ∈ ps ↔ has_edge l (p, i).
Proof.
  intros Hwf. destruct (mirror_wf l Hwf) as (rev & Hrun & Hwf' & Hst).
  unfold get_parents. rewrite Hrun. simpl.
  pose proof (find_children_spec rev i Hwf') as H. unfold find_children in H.
  destruct (find_children' rev i) as [[r|]|]; [| |done]; simpl.
  - destruct H as (_ & Hnd & Hr). exists (r.*1). split; [done|]. split; [done|].
    intros p. rewrite list_elem_of_fmap. unfold has_edge. split.
    + intros ([d v] & -> & Hin). exists v. by apply Hr, Hst in Hin.
    + intros [v Hv]. exists (p, v). split; [done|]. apply Hr, Hst. done.
  - exists []. split; [done|]. split; [constructor|].
    intros p. split; [by intros ?%elem_of_nil|].
    intros [v Hv]. exfalso. apply (H p v), Hst. done.
Qed.

(** X13: in a well-formed matrix [get_parents(i)] returns exactly the
    sources of the edges that enter [i], once each; it is the empty list when
    there is none. *)
Theorem get_parents_exact (l : t) i :
  wf l →
  ∃ ps, get_parents l i = Ok ps ∧ NoDup ps ∧ ∀ p, p ∈ ps ↔ has_edge l (p, i).
Proof. apply get_parents_spec. Qed.

Lemma get_parents_exact_witness :
  ∃ ps, get_parents (setitem (setitem init (1, 3) "x") (12, 3) "y") 3 = Ok ps ∧
        NoDup ps ∧
        ∀ p, p ∈ ps ↔ has_edge (setitem (setitem init (1, 3) "x") (12, 3) "y") (p, 3).
Proof. apply get_parents_exact, setitem_wf, setitem_wf, wf_init. Defined.

End SparseMatrixExtras.

Module GraphExtras.
Import SparseMatrix SparseMatrixFacts GraphFacts.



(** X16: [update_edge] never writes: whatever the arguments, the world it
    leaves is the world it found, and its result is [False] or [TypeError],
    never [True]. *)
Theorem update_edge_never_writes w s t passes :
  (Graph.update_edge s t passes w).2 = w ∧
  (Graph.update_edge s t passes w).1 ≠ Ok true.
Proof.
  destruct (update_edge_outcome w s t passes) as [->|[-> _]]; by split.
Qed.



(** *** Graphs built without merging *)

Lemma after_ok w c : graph_ok (graph w) → graph_ok (graph (after w c)).
Proof.
  intros Hok. destruct c; simpl.
  - by apply add_state_ok.
  - by apply add_edge_ok.
  - by destruct (update_edge_outcome w start end_ passes) as [->|[-> _]].
  - by apply merge_states_ok.
Qed.

Lemma add_state_cases w s :
  (Graph.contains (graph w) s = true ∧
   Graph.add_state s w = (Raise StateAlreadyExistsException, w)) ∨
  (Graph.contains (graph w) s = false ∧
   ∃ w', Graph.add_state s w = (Ok (), w') ∧
     states (graph w') = <[Graph.size (graph w) := s]> (states (graph w)) ∧
     state_indices_by_id (graph w') =
       <[s := Graph.size (graph w)]> (state_indices_by_id (graph w)) ∧
     edges (graph w') = edges (graph w) ∧
     start_node (graph w') = start_node (graph w) ∧
     Graph.contains (graph w') s = true).
Proof.
  unfold Graph.add_state, Graph.intern. run. cbn [heap graph].
  destruct (Graph.contains (graph w) s) eqn:Hc; [by left|]. right. split; [done|].
  cbn [heap graph set_states set_state_indices_by_id prop_by_hash].
  destruct (prop_by_hash (graph w) !! _); eexists; (split; [reflexivity|]); simpl;
    (split_and!; try done);
    unfold Graph.contains; simpl; rewrite lookup_insert_eq;
    by apply bool_decide_eq_true_2.
Qed.

(** X14: [add_state] succeeds exactly on a state that is not in the graph.
    It then files the state under the index [len(self.states)], and leaves
    the edges and the indices of the other states as they were; on a state of
    the graph it raises [StateAlreadyExistsException] and writes nothing. *)
Theorem add_state_outcome w s :
  (Graph.contains (graph w) s = true ∧
   Graph.add_state s w = (Raise StateAlreadyExistsException, w)) ∨
  (Graph.contains (graph w) s = false ∧
   ∃ w', Graph.add_state s w = (Ok (), w') ∧
     states (graph w') = <[Graph.size (graph w) := s]> (states (graph w)) ∧
     state_indices_by_id (graph w') =
       <[s := Graph.size (graph w)]> (state_indices_by_id (graph w)) ∧
     edges (graph w') = edges (graph w) ∧
     start_node (graph w') = start_node (graph w) ∧
     Graph.contains (graph w') s = true).
Proof. apply add_state_cases. Qed.

Lemma add_edge_cases w s t props :
  Graph.add_edge s t props w = (Ok false, w) ∨
  ∃ i j, state_indices_by_id (graph w) !! s = Some i ∧
         state_indices_by_id (graph w) !! t = Some j ∧
         contains (edges (graph w)) (i, j) = false ∧
         Graph.add_edge s t props w =
           (Ok true, mkWorld (heap w) (set_edges (setitem (edges (graph w)) (i, j) props) (graph w))).
Proof.
  unfold Graph.add_edge. run. cbn [heap graph].
  destruct (state_indices_by_id (graph w) !! s) as [i|]; [|by left].
  destruct (state_indices_by_id (graph w) !! t) as [j|]; [|by left].
  destruct (contains (edges (graph w)) (i, j)) eqn:E; simpl; [by left|].
  right. by exists i, j.
Qed.

Lemma dense_add_state w s : dense (graph w) → dense (graph (Graph.add_state s w).2).
Proof.
  intros [Hk Hinv].
  destruct (add_state_cases w s) as [[_ ->]|[Hc (w' & -> & Hst & Hix & _)]]; [done|].
  simpl. unfold Graph.contains in Hc. apply bool_decide_eq_false in Hc.
  assert (state_indices_by_id (graph w) !! s = None) as Hs.
  { by destruct (state_indices_by_id (graph w) !! s); [destruct Hc|]. }
  assert (states (graph w) !! Graph.size (graph w) = None) as Hn.
  { destruct (states (graph w) !! Graph.size (graph w)) eqn:E; [|done].
    assert (is_Some (states (graph w) !! Graph.size (graph w))) as H%Hk by done. lia. }
  split.
  - intros i. unfold Graph.size. rewrite Hst, map_size_insert_None by done.
    rewrite lookup_insert_is_Some, Hk. unfold Graph.size. lia.
  - intros s' i. rewrite Hst, Hix.
    rewrite lookup_insert_Some, lookup_insert_Some, (Hinv s' i). split.
    + intros [[-> <-]|[Hne Hi]]; [by left|]. right. split; [|done].
      intros <-. by rewrite Hn in Hi.
    + intros [[<- ->]|[Hne Hi]]; [by left|]. right. split; [|done].
      intros <-. apply Hinv in Hi. by rewrite Hs in Hi.
Qed.

Lemma closed_add_state w s : closed (graph w) → closed (graph (Graph.add_state s w).2).
Proof.
  intros Hcl.
  destruct (add_state_cases w s) as [[_ ->]|[Hc (w' & -> & Hst & Hix & He & _)]]; [done|].
  simpl. intros k. rewrite He, Hst. intros [H1 H2]%Hcl.
  rewrite !lookup_insert_is_Some. destruct (decide (Graph.size (graph w) = k.1)),
    (decide (Graph.size (graph w) = k.2)); naive_solver.
Qed.

Lemma closed_add_edge w s t props :
  wf (edges (graph w)) → dense (graph w) → closed (graph w) →
  closed (graph (Graph.add_edge s t props w).2).
Proof.
  intros Hwf [_ Hinv] Hcl.
  destruct (add_edge_cases w s t props) as [->|(i & j & Hi & Hj & _ & ->)]; [done|].
  cbn [snd graph]. intros k. unfold set_edges at 1. cbn [edges].
  rewrite setitem_has_edge by done. intros [->|Hk]; [|by apply Hcl].
  cbn [states set_edges fst snd]. apply Hinv in Hi, Hj. by rewrite Hi, Hj.
Qed.

Lemma build_consistent w calls :
  existsb is_merge calls = false →
  graph_ok (graph w) → dense (graph w) → closed (graph w) →
  dense (graph (foldl after w calls)) ∧ closed (graph (foldl after w calls)).
Proof.
  revert w. induction calls as [|c calls IH]; intros w Hm Hok Hd Hcl; simpl; [done|].
  simpl in Hm. apply orb_false_iff in Hm as [Hc Hm].
  apply IH; [done|by apply after_ok|..]; destruct c; simpl; try done.
  - by apply dense_add_state.
  - by destruct (add_edge_cases w start end_ props) as [->|(i & j & _ & _ & _ & ->)].
  - by destruct (update_edge_outcome w start end_ passes) as [->|[-> _]].
  - by apply closed_add_state.
  - apply closed_add_edge; [apply Hok|done..].
  - by destruct (update_edge_outcome w start end_ passes) as [->|[-> _]].
Qed.

Lemma init_dense start : dense (Graph.init start) ∧ closed (Graph.init start).
Proof.
  split; [split|].
  - intros i. unfold Graph.size. simpl. rewrite lookup_empty, map_size_empty.
    split; [by intros [? ?]|lia].
  - intros s i. simpl. by rewrite !lookup_empty.
  - intros k [v Hv]. by apply elem_of_nil in Hv.
Qed.



(** X18: as long as [merge_states] is not called, the graph stays
    consistent: the states have the indices [0 .. size - 1], no two states
    share an index, [state_indices_by_id] and [states] are inverse to each
    other, and every edge joins two indices that hold a state. *)
Theorem build_keeps_states_apart h start calls :
  existsb is_merge calls = false →
  dense (graph (foldl after (mkWorld h (Graph.init start)) calls)) ∧
  closed (graph (foldl after (mkWorld h (Graph.init start)) calls)).
Proof.
  intros Hm. apply build_consistent; [done|apply init_ok|apply init_dense..].
Qed.

Lemma build_keeps_states_apart_witness :
  dense (graph Examples.chain) ∧ closed (graph Examples.chain).
Proof.
  apply (build_keeps_states_apart Examples.objects None
           [AddState 1%positive; AddState 2%positive; AddState 3%positive;
            AddEdge 1%positive 2%positive "1"; AddEdge 2%positive 3%positive "1"]).
  reflexivity.
Defined.

(** X15: [add_edge] that returns [True] has stored the edge between the
    indices of the two states with the payload given, has changed no other
    pair and nothing but the adjacency list; and a second [add_edge] between
    the same states returns [False] and writes nothing: there are no
    multi-edges and the first payload stays. *)
Theorem add_edge_stores w s t props w' :
  wf (edges (graph w)) →
  Graph.add_edge s t props w = (Ok true, w') →
  ∃ i j, state_indices_by_id (graph w) !! s = Some i ∧
         state_indices_by_id (graph w) !! t = Some j ∧
         stored (edges (graph w')) (i, j) props ∧
         (∀ k v, k ≠ (i, j) → stored (edges (graph w')) k v ↔ stored (edges (graph w)) k v) ∧
         heap w' = heap w ∧ states (graph w') = states (graph w) ∧
         state_indices_by_id (graph w') = state_indices_by_id (graph w) ∧
         start_node (graph w') = start_node (graph w) ∧
         ∀ props', Graph.add_edge s t props' w' = (Ok false, w').
Proof.
  intros Hwf Hrun.
  destruct (add_edge_cases w s t props) as [H|(i & j & Hi & Hj & Hc & H)];
    rewrite H in Hrun; [done|]. injection Hrun as <-.
  exists i, j. simpl. split_and!; try done.
  - apply setitem_stored; auto.
  - intros k v Hne. rewrite setitem_stored by done. naive_solver.
  - intros props'. unfold Graph.add_edge. run. cbn [heap graph set_edges state_indices_by_id edges].
    rewrite Hi, Hj.
    rewrite (contains_stored _ (i, j) props); [done|by apply setitem_wf|].
    apply setitem_stored; auto.
Qed.

Lemma add_edge_stores_witness :
  ∃ i j, stored (edges (graph (Graph.add_edge 1%positive 3%positive "7" Examples.chain).2))
           (i, j) "7" ∧
         Graph.add_edge 1%positive 3%positive "9"
           (Graph.add_edge 1%positive 3%positive "7" Examples.chain).2 =
         (Ok false, (Graph.add_edge 1%positive 3%positive "7" Examples.chain).2).
Proof.
  destruct (add_edge_stores Examples.chain 1%positive 3%positive "7"
              (Graph.add_edge 1%positive 3%positive "7" Examples.chain).2)
    as (i & j & _ & _ & Hst & _ & _ & _ & _ & _ & Hagain).
  - apply chain_ok.
  - reflexivity.
  - exists i, j. split; [exact Hst|apply Hagain].
Defined.

(** *** Neighbours *)

Ltac step := cbv [mbind M_bind mret M_ret self update deref assign subscript lift raise].

Lemma dict_get_Some `{Countable K} {V} (d : gmap K V) k v : d !! k = Some v → dict_get d k = Ok v.
Proof. unfold dict_get. by intros ->. Qed.


Lemma rmap_dict_get_ok {A} (d : gmap Z ref) (f : A → Z) (l : list A) :
  (∀ a, a ∈ l → is_Some (d !! f a)) →
  ∃ r, rmap (λ a, dict_get d (f a)) l = Ok r ∧ length r = length l ∧
       ∀ c, c ∈ r ↔ ∃ a, a ∈ l ∧ d !! f a = Some c.
Proof.
  intros Hl. exists ((λ a, d !!! f a) <$> l). split_and!.
  - apply rmap_ok. intros a [c Hc]%Hl. unfold dict_get.
    by rewrite Hc, (lookup_total_correct _ _ _ Hc).
  - by rewrite length_fmap.
  - intros c. rewrite list_elem_of_fmap. split.
    + intros (a & -> & Ha). exists a. split; [done|].
      destruct (Hl a Ha) as [c Hc]. by rewrite (lookup_total_correct _ _ _ Hc).
    + intros (a & Ha & Hc). exists a. split; [|done].
      by rewrite (lookup_total_correct _ _ _ Hc).
Qed.

Lemma outgoing_spec w s i :
  wf (edges (graph w)) → closed (graph w) →
  state_indices_by_id (graph w) !! s = Some i →
  ∃ l, Graph.get_outgoing_states s w = (Ok (Some l), w) ∧
    ∀ c, c ∈ l ↔ ∃ j, has_edge (edges (graph w)) (i, j) ∧ states (graph w) !! j = Some c.
Proof.
  intros Hwf Hcl Hi. unfold Graph.get_outgoing_states, Graph.contains. step. cbn [heap graph].
  rewrite (dict_get_Some _ _ _ Hi). rewrite bool_decide_eq_true_2 by (by rewrite Hi).
  pose proof (find_children_spec (edges (graph w)) i Hwf) as H.
  destruct (find_children (edges (graph w)) i) as [[r|]|]; [| |done].
  - destruct H as (_ & _ & Hr).
    destruct (rmap_dict_get_ok (states (graph w)) (λ result : Z * string, result.1) r)
      as (l & -> & _ & Hl).
    { intros [d v] Hin. apply Hr in Hin. apply (Hcl (i, d)). by exists v. }
    exists l. split; [done|]. intros c. rewrite Hl. split.
    + intros ([d v] & Hin & Hc). exists d. split; [|done]. exists v. by apply Hr.
    + intros (j & [v Hv] & Hc). exists (j, v). split; [|done]. by apply Hr.
  - exists []. split; [done|]. intros c. split; [by intros ?%elem_of_nil|].
    intros (j & [v Hv] & _). by apply H in Hv.
Qed.

(** X20: in a graph whose edges join indices that hold a state,
    [get_outgoing_states] of a state of the graph returns exactly the states
    filed under the destinations of its outgoing edges, and reads only. *)
Theorem get_outgoing_states_exact w s i :
  wf (edges (graph w)) → closed (graph w) →
  state_indices_by_id (graph w) !! s = Some i →
  ∃ l, Graph.get_outgoing_states s w = (Ok (Some l), w) ∧
    ∀ c, c ∈ l ↔ ∃ j, has_edge (edges (graph w)) (i, j) ∧ states (graph w) !! j = Some c.
Proof. apply outgoing_spec. Qed.

(** X21: [get_outgoing_states_not_self] of a state of such a graph returns
    exactly its outgoing states other than the state itself. *)
Theorem get_outgoing_states_not_self_exact w s i :
  wf (edges (graph w)) → closed (graph w) →
  state_indices_by_id (graph w) !! s = Some i →
  ∃ l, Graph.get_outgoing_states_not_self s w = (Ok l, w) ∧
    ∀ c, c ∈ l ↔
         c ≠ s ∧ ∃ j, has_edge (edges (graph w)) (i, j) ∧ states (graph w) !! j = Some c.
Proof.
  intros Hwf Hcl Hi. destruct (outgoing_spec w s i Hwf Hcl Hi) as (l & Hrun & Hl).
  unfold Graph.get_outgoing_states_not_self. cbv [mbind M_bind]. rewrite Hrun.
  destruct l as [|x l].
  - exists []. split; [done|]. intros c. rewrite <-Hl. split; [by intros ?%elem_of_nil|].
    by intros [_ ?%elem_of_nil].
  - eexists. split; [reflexivity|]. intros c. rewrite list_elem_of_filter, Hl. done.
Qed.


(** X23: in such a graph [get_incoming_states] of a state of the graph
    returns exactly the states filed under the sources of its incoming
    edges. *)
Theorem get_incoming_states_exact w s i :
  wf (edges (graph w)) → closed (graph w) →
  state_indices_by_id (graph w) !! s = Some i →
  ∃ l, Graph.get_incoming_states s w = (Ok (Some l), w) ∧
    ∀ c, c ∈ l ↔ ∃ j, has_edge (edges (graph w)) (j, i) ∧ states (graph w) !! j = Some c.
Proof.
  intros Hwf Hcl Hi. unfold Graph.get_incoming_states, Graph.contains. step. cbn [heap graph].
  rewrite (dict_get_Some _ _ _ Hi). rewrite bool_decide_eq_true_2 by (by rewrite Hi).
  destruct (SparseMatrixExtras.get_parents_spec (edges (graph w)) i Hwf) as (ps & -> & _ & Hps).
  destruct (rmap_dict_get_ok (states (graph w)) (λ result : Z, result) ps) as (l & Hrun & _ & Hl).
  { intros p Hp%Hps. by apply (Hcl (p, i)). }
  destruct ps as [|p ps].
  - exists []. split; [done|]. intros c. split; [by intros ?%elem_of_nil|].
    intros (j & Hj%Hps & _). by apply elem_of_nil in Hj.
  - rewrite Hrun. exists l. split; [done|]. intros c. rewrite Hl. split.
    + intros (j & Hj & Hc). exists j. split; [by apply Hps|done].
    + intros (j & Hj & Hc). exists j. split; [by apply Hps|done].
Qed.

Lemma chain_closed : closed (graph Examples.chain).
Proof.
  apply (build_consistent Examples.fresh
           [AddState 1%positive; AddState 2%positive; AddState 3%positive;
            AddEdge 1%positive 2%positive "1"; AddEdge 2%positive 3%positive "1"]);
    [reflexivity|apply init_ok|apply init_dense..].
Qed.

Lemma get_outgoing_states_exact_witness :
  ∃ l, Graph.get_outgoing_states 1%positive Examples.chain = (Ok (Some l), Examples.chain) ∧
    ∀ c, c ∈ l ↔ ∃ j, has_edge (edges (graph Examples.chain)) (0, j) ∧
                      states (graph Examples.chain) !! j = Some c.
Proof.
  apply (get_outgoing_states_exact Examples.chain 1%positive 0).
  - apply chain_ok.
  - apply chain_closed.
  - vm_compute. reflexivity.
Defined.

Lemma get_outgoing_states_not_self_exact_witness :
  ∃ l, Graph.get_outgoing_states_not_self 1%positive Examples.chain = (Ok l, Examples.chain) ∧
    ∀ c, c ∈ l ↔ c ≠ 1%positive ∧
                 ∃ j, has_edge (edges (graph Examples.chain)) (0, j) ∧
                      states (graph Examples.chain) !! j = Some c.
Proof.
  apply (get_outgoing_states_not_self_exact Examples.chain 1%positive 0).
  - apply chain_ok.
  - apply chain_closed.
  - vm_compute. reflexivity.
Defined.

Lemma get_incoming_states_exact_witness :
  ∃ l, Graph.get_incoming_states 3%positive Examples.chain = (Ok (Some l), Examples.chain) ∧
    ∀ c, c ∈ l ↔ ∃ j, has_edge (edges (graph Examples.chain)) (j, 2) ∧
                      states (graph Examples.chain) !! j = Some c.
Proof.
  apply (get_incoming_states_exact Examples.chain 3%positive 2).
  - apply chain_ok.
  - apply chain_closed.
  - vm_compute. reflexivity.
Defined.


(** *** Merging *)









End GraphExtras.

Module StateExtras.

(** X26: [is_equivalent_weak] holds exactly when the two states share a
    template; it is symmetric, and a state is weakly equivalent to itself
    exactly when it has a template. *)
Theorem is_equivalent_weak_shares s t :
  (is_equivalent_weak s t = true ↔
   ∃ x, x ∈ log_templates (properties s) ∧ x ∈ log_templates (properties t)) ∧
  is_equivalent_weak s t = is_equivalent_weak t s ∧
  (is_equivalent_weak s s = true ↔ log_templates (properties s) ≠ []).
Proof.
  assert (∀ s t, is_equivalent_weak s t = true ↔
    ∃ x, x ∈ log_templates (properties s) ∧ x ∈ log_templates (properties t)) as H.
  { intros s' t'. unfold is_equivalent_weak. rewrite existsb_exists. split.
    - intros (x & Hx%list_elem_of_In & Ht%bool_decide_eq_true). eauto.
    - intros (x & Hx & Ht). exists x. split; [by apply list_elem_of_In|].
      by apply bool_decide_eq_true. }
  split_and!.
  - apply H.
  - apply eq_true_iff_eq. rewrite !H. naive_solver.
  - rewrite H. destruct (log_templates (properties s)) as [|x l].
    + split; [|done]. by intros (x & ?%elem_of_nil & _).
    + split; [done|]. intros _. exists x. split; by left.
Qed.

End StateExtras.

Module MatchingExtras.
Import MatchingFacts.

Section Walks.

Variable search : string → option string.
Variable w : world.





(** X28: [match_trace] needs a start node that is in the graph.  When the
    graph has no start node, or its start node is not a state of the graph,
    a trace whose first line has a template is not rejected: the call raises
    [TypeError], before it touches the trace or draws a random number. *)
Theorem match_trace_needs_start line rest r name :
  search line = Some name →
  (start_node (graph w) = None ∨
   ∃ s, start_node (graph w) = Some s ∧ Graph.contains (graph w) s = false) →
  match_trace search w (line :: rest) r = mkRun (Raise TypeError) (line :: rest) r.
Proof.
  intros Hname Hstart. unfold match_trace. rewrite Hname.
  assert (outgoing w (start_node (graph w)) = Ok None) as ->; [|done].
  destruct Hstart as [->|(s & -> & Hs)]; [done|].
  unfold outgoing, Graph.get_outgoing_states. cbv [mbind M_bind self]. by rewrite Hs.
Qed.

End Walks.

Import Examples.


Lemma match_trace_needs_start_witness :
  match_trace resolve chain ["B"] [] = mkRun (Raise TypeError) ["B"] [].
Proof.
  apply (match_trace_needs_start resolve chain "B" [] [] "B"); [reflexivity|].
  left. reflexivity.
Defined.

End MatchingExtras.

Module CallerExtras.
Import GraphEnv Visualizer.

(** X29: [get_next_node] returns the top of the stack, popped, when it is a
    state of the graph.  When the top is not in the graph it does not go on
    to the next state of the graph below it: it discards the whole stack and
    returns [None]; as it does on the empty stack. *)
Theorem get_next_node_top g node stack :
  get_next_node g [] = (None, []) ∧
  (Graph.contains g node = true → get_next_node g (node :: stack) = (Some node, stack)) ∧
  (Graph.contains g node = false → get_next_node g (node :: stack) = (None, [])).
Proof.
  split_and!; [done|..]; intros Hc; simpl.
  - destruct stack; simpl; by rewrite Hc.
  - induction stack as [|x stack IH]; simpl; by rewrite Hc.
Qed.

Lemma get_next_node_top_witness :
  get_next_node (graph Examples.chain) [4%positive; 1%positive; 2%positive] = (None, []) ∧
  get_next_node (graph Examples.chain) [1%positive; 2%positive] = (Some 1%positive, [2%positive]).
Proof.
  split.
  - apply (get_next_node_top (graph Examples.chain) 4%positive [1%positive; 2%positive]).
    vm_compute. reflexivity.
  - apply (get_next_node_top (graph Examples.chain) 1%positive [2%positive]).
    vm_compute. reflexivity.
Defined.

Lemma get_label_step (m : gmap string Z) t :
  numbered m →
  let m' := if bool_decide (is_Some (m !! t)) then m else <[t := Z.of_nat (size m)]> m in
  m ⊆ m' ∧ numbered m' ∧ is_Some (m' !! t).
Proof.
  intros [Hr Hi]. case_bool_decide as Ht; simpl; [done|].
  assert (m !! t = None) as Hn by (by destruct (m !! t); [destruct Ht|]).
  split_and!.
  - by apply insert_subseteq.
  - split.
    + intros k v. rewrite map_size_insert_None by done.
      intros [[<- <-]|[_ Hk%Hr]]%lookup_insert_Some; lia.
    + intros k1 k2 v [[<- <-]|[H1 Hk1]]%lookup_insert_Some
        [[<- Hv]|[H2 Hk2]]%lookup_insert_Some; try done.
      * apply Hr in Hk2. lia.
      * apply Hr in Hk1. lia.
      * by eapply Hi.
  - by rewrite lookup_insert_eq.
Qed.

(** X30: [get_label] keeps the numbering of the templates stable and free
    of clashes: a mapping whose numbers are [0 .. len - 1], each used once
    (as the initial mapping is), stays so; the numbers given before are
    kept; and afterwards every template of the list has a number. *)
Theorem get_label_numbering label_mapping log_templates :
  numbered label_mapping →
  label_mapping ⊆ (get_label label_mapping log_templates).2 ∧
  numbered (get_label label_mapping log_templates).2 ∧
  ∀ t, t ∈ log_templates → is_Some ((get_label label_mapping log_templates).2 !! t).
Proof.
  unfold get_label. generalize (if bool_decide (1 < length log_templates)%nat then "[" else "").
  generalize (bool_decide (1 < length log_templates)%nat). intros bracket label.
  revert label label_mapping.
  induction log_templates as [|t l IH]; intros label m Hm.
  - simpl. split_and!; [done..|]. by intros t ?%elem_of_nil.
  - cbn [foldl].
    destruct (get_label_step m t Hm) as (Hsub & Hm' & Ht).
    set (m' := if bool_decide (is_Some (m !! t)) then m else <[t := Z.of_nat (size m)]> m) in *.
    specialize (IH (label ++ PyStr.str (m' !!! t)) m' Hm').
    destruct (foldl _ (label ++ PyStr.str (m' !!! t), m') l) as [label' m''] eqn:E.
    simpl in *. destruct IH as (Hsub' & Hm'' & Hall). split_and!.
    + by etrans.
    + done.
    + intros x [->|Hx]%elem_of_cons; [|by apply Hall].
      destruct Ht as [v Hv]. exists v. by eapply lookup_weaken.
Qed.

Lemma get_label_numbering_witness :
  numbered (get_label {[ "" := 0 ]} ["A"; "B"; "A"]).2.
Proof.
  apply (get_label_numbering {[ "" := 0 ]} ["A"; "B"; "A"]).
  split.
  - intros k v [<- <-]%lookup_singleton_Some. rewrite map_size_singleton. lia.
  - intros k1 k2 v [<- _]%lookup_singleton_Some [<- _]%lookup_singleton_Some. reflexivity.
Defined.

End CallerExtras.
